(** * A shallow embedding of the I/O core of [reverse_proxy.py]

    The Python module relays TCP byte streams between an IPv6 client and a
    local IPv4 server.  We embed:
    - the in-stream rewrite of [ReverseProxy.read_from_client]
      (ISO-8859-1 decoding, the regex search for [\[[^]]*]:PORT] and
      Python's [str.replace]);
    - [safe_send] against a socket whose [send] answers are an oracle;
    - the two directional handlers, [close_connection],
      [accept_connection] and the event loop of [run], over an explicit
      state of sockets and selector registrations. *)

From Stdlib Require Import List Ascii String Arith ZArith Lia Bool.
From Stdlib Require Import Strings.Byte.
Import ListNotations.
Open Scope list_scope.

(* ------------------------------------------------------------------ *)
(** ** Python [str] values and ISO-8859-1 *)

(** A Python [str] produced by decoding bytes with ISO-8859-1 holds code
    points 0..255 only: a list of 8-bit characters. *)
Definition str := list ascii.

(** [data.decode('ISO-8859-1', 'ignore')]: every byte decodes to the code
    point of the same value, nothing is ever ignored. *)
Definition decode_latin1 (data : list byte) : str := map ascii_of_byte data.

(** [str_data.encode('ISO-8859-1')]. *)
Definition encode_latin1 (s : str) : list byte := map byte_of_ascii s.

(** Decimal digits of an unsigned integer, as f-strings render an [int]. *)
Fixpoint uint_digits (u : Decimal.uint) : str :=
  match u with
  | Decimal.Nil => []
  | Decimal.D0 u => "0"%char :: uint_digits u
  | Decimal.D1 u => "1"%char :: uint_digits u
  | Decimal.D2 u => "2"%char :: uint_digits u
  | Decimal.D3 u => "3"%char :: uint_digits u
  | Decimal.D4 u => "4"%char :: uint_digits u
  | Decimal.D5 u => "5"%char :: uint_digits u
  | Decimal.D6 u => "6"%char :: uint_digits u
  | Decimal.D7 u => "7"%char :: uint_digits u
  | Decimal.D8 u => "8"%char :: uint_digits u
  | Decimal.D9 u => "9"%char :: uint_digits u
  end.

(** [f'{self.port}'] *)
Definition port_str (port : nat) : str := uint_digits (Nat.to_uint port).

Definition lit (s : string) : str := list_ascii_of_string s.

(** [p] is a prefix of [s]. *)
Fixpoint prefixb (p s : str) : bool :=
  match p, s with
  | [], _ => true
  | a :: p', b :: s' => Ascii.eqb a b && prefixb p' s'
  | _ :: _, [] => false
  end.

(* ------------------------------------------------------------------ *)
(** ** The regex [\[[^]]*]:PORT] and [re.search] *)

(** After an opening [\[]: the run [[^]]*] followed by the literal [\]].
    Because the class excludes [\]], the greedy run stops at the first
    [\]] and no backtracking can produce another candidate: the only
    possible continuation is the first [\]].  Returns the length of the
    run and what follows the [\]]. *)
Fixpoint close_bracket (s : str) : option (nat * str) :=
  match s with
  | [] => None
  | c :: t =>
      if Ascii.eqb c "]"%char then Some (0, t)
      else match close_bracket t with
           | Some (n, r) => Some (S n, r)
           | None => None
           end
  end.

(** Length of a match of [\[[^]]*]] followed by [tail] at the head of
    [s], if any. *)
Definition match_at (tail : str) (s : str) : option nat :=
  match s with
  | c :: t =>
      if Ascii.eqb c "["%char then
        match close_bracket t with
        | Some (n, r) => if prefixb tail r then Some (S (S (n + List.length tail)))
                         else None
        | None => None
        end
      else None
  | [] => None
  end.

(** [re.search]: the leftmost match, as its span [(start, end)]. *)
Fixpoint search_from (tail : str) (i : nat) (s : str) : option (nat * nat) :=
  match match_at tail s with
  | Some len => Some (i, i + len)
  | None =>
      match s with
      | [] => None
      | _ :: t => search_from tail (S i) t
      end
  end.

(** [re.compile(f'\\[[^]]*]:{self.port}').search(str_data)] *)
Definition ip6_search (port : nat) (s : str) : option (nat * nat) :=
  search_from (":"%char :: port_str port) 0 s.

(** [s[start:end]] *)
Definition slice (start stop : nat) (s : str) : str :=
  firstn (stop - start) (skipn start s).

(* ------------------------------------------------------------------ *)
(** ** Python's [str.replace(old, new)] *)

(** All non-overlapping occurrences of [old], scanned left to right, are
    replaced by [new].  [skip] counts the characters of an occurrence
    already replaced that remain to be dropped.  [old] is never empty at
    the call site (a match holds at least [\[\]:] and the port). *)
Fixpoint replace_aux (old new : str) (skip : nat) (s : str) : str :=
  match s with
  | [] => []
  | c :: t =>
      match skip with
      | S k => replace_aux old new k t
      | 0 =>
          if prefixb old s then new ++ replace_aux old new (pred (List.length old)) t
          else c :: replace_aux old new 0 t
      end
  end.

Definition py_replace (old new s : str) : str := replace_aux old new 0 s.

(* ------------------------------------------------------------------ *)
(** ** The rewrite of [read_from_client] (source lines 110-120) *)

Definition loopback_literal (port : nat) : str := lit "127.0.0.1:" ++ port_str port.

Definition rewrite_client_data (port : nat) (data : list byte) : list byte :=
  let str_data := decode_latin1 data in
  match ip6_search port str_data with
  | Some (st, en) =>
      encode_latin1
        (py_replace (slice st en str_data) (loopback_literal port) str_data)
  | None => data
  end.

Definition crlf : str := ["013"%char; "010"%char].

Definition http_get_host (host : string) : list byte :=
  encode_latin1 (lit "GET / HTTP/1.1" ++ crlf ++ lit "Host: " ++ lit host
                 ++ crlf ++ crlf).

(* ------------------------------------------------------------------ *)
(** ** The pattern, stated on strings *)

(** A bracketed literal without [\]] inside, then [:PORT], at some
    position of [s]. *)
Definition no_close (x : str) : Prop := ~ In "]"%char x.

Definition ip6_occurrence (port : nat) (x : str) : str :=
  "["%char :: x ++ "]"%char :: ":"%char :: port_str port.

Definition has_ip6_pattern (port : nat) (s : str) : Prop :=
  exists pre x post, no_close x /\ s = pre ++ ip6_occurrence port x ++ post.

(* ------------------------------------------------------------------ *)
(** ** Sockets, the selector and Python exceptions *)

(** Sockets are named by the order in which they were created. *)
Definition sock := nat.

(** The exception classes the core can meet; all derive from
    [Exception].  [KeyboardInterrupt], which does not, is modelled at the
    one place the loop waits, the [select] call. *)
Inductive exn :=
| BlockingIOError | ConnectionResetError | ConnectionAbortedError
| ConnectionRefusedError | BrokenPipeError | TimeoutError | OSError
| RuntimeError | KeyError | ValueError.

(** The [data] attached to a selector key: [self.accept_connection] or
    the tuple [(handler, client, server)]. *)
Inductive reg_data :=
| RAccept
| RClient (client server : sock)
| RServer (client server : sock).

Inductive log_line :=
| LNote (what : string)
| LError (site : string) (e : exn).

Record world := mkWorld {
  w_reg : list (sock * reg_data);   (** the selector map, in registration order *)
  w_closed : list sock;             (** sockets whose [close()] ran *)
  w_sel_closed : bool;              (** [self.sel.close()] ran *)
  w_running : bool;                 (** [self.running] *)
  w_next : sock;                    (** the next socket to be created *)
  w_polls : nat;                    (** [select] calls so far *)
  w_wire : list (sock * list byte); (** bytes accepted by [send], per call *)
  w_log : list log_line             (** the [print] output *)
}.

Definition set_reg r w :=
  mkWorld r (w_closed w) (w_sel_closed w) (w_running w) (w_next w) (w_polls w) (w_wire w) (w_log w).
Definition set_closed c w :=
  mkWorld (w_reg w) c (w_sel_closed w) (w_running w) (w_next w) (w_polls w) (w_wire w) (w_log w).
Definition set_sel_closed b w :=
  mkWorld (w_reg w) (w_closed w) b (w_running w) (w_next w) (w_polls w) (w_wire w) (w_log w).
Definition set_running b w :=
  mkWorld (w_reg w) (w_closed w) (w_sel_closed w) b (w_next w) (w_polls w) (w_wire w) (w_log w).
Definition set_next n w :=
  mkWorld (w_reg w) (w_closed w) (w_sel_closed w) (w_running w) n (w_polls w) (w_wire w) (w_log w).
Definition set_polls n w :=
  mkWorld (w_reg w) (w_closed w) (w_sel_closed w) (w_running w) (w_next w) n (w_wire w) (w_log w).
Definition set_wire l w :=
  mkWorld (w_reg w) (w_closed w) (w_sel_closed w) (w_running w) (w_next w) (w_polls w) l (w_log w).
Definition set_log l w :=
  mkWorld (w_reg w) (w_closed w) (w_sel_closed w) (w_running w) (w_next w) (w_polls w) (w_wire w) l.

(* ------------------------------------------------------------------ *)
(** ** A state and exception monad for the Python code *)

(** A call returns, raises, or is still running when the environment's
    answers run out (the busy-wait of [safe_send], the [while] loop). *)
Inductive res (A : Type) : Type :=
| Ok (a : A)
| Exc (e : exn)
| Stuck.
Arguments Ok {A} a.
Arguments Exc {A} e.
Arguments Stuck {A}.

(** Exceptions do not roll back the state. *)
Definition PyM (A : Type) : Type := world -> res A * world.

Definition ret {A} (a : A) : PyM A := fun w => (Ok a, w).
Definition raise {A} (e : exn) : PyM A := fun w => (Exc e, w).
Definition stuck {A} : PyM A := fun w => (Stuck, w).

Definition bind {A B} (m : PyM A) (k : A -> PyM B) : PyM B :=
  fun w =>
    match m w with
    | (Ok a, w') => k a w'
    | (Exc e, w') => (Exc e, w')
    | (Stuck, w') => (Stuck, w')
    end.

Notation "x <- m ;; k" := (bind m (fun x => k))
  (at level 61, m at next level, right associativity).
Notation "m ;; k" := (bind m (fun _ => k))
  (at level 61, right associativity).

(** [try: m except <class> as e: h(e)], the class given by [catches]. *)
Definition try_catch {A} (catches : exn -> bool) (m : PyM A) (h : exn -> PyM A) : PyM A :=
  fun w =>
    match m w with
    | (Exc e, w') => if catches e then h e w' else (Exc e, w')
    | r => r
    end.

(** [except Exception]: every modelled exception. *)
Definition any_exception (e : exn) : bool := true.

(** [try: m finally: f]; a call that never ends never reaches [f]. *)
Definition try_finally {A} (m : PyM A) (f : PyM unit) : PyM A :=
  fun w =>
    match m w with
    | (Stuck, w1) => (Stuck, w1)
    | (r, w1) =>
        match f w1 with
        | (Ok _, w2) => (r, w2)
        | (Exc e, w2) => (Exc e, w2)
        | (Stuck, w2) => (Stuck, w2)
        end
    end.

Definition get_world : PyM world := fun w => (Ok w, w).
Definition modify (f : world -> world) : PyM unit := fun w => (Ok tt, f w).

Definition print (l : log_line) : PyM unit := modify (fun w => set_log (w_log w ++ [l]) w).

(* ------------------------------------------------------------------ *)
(** ** Socket and selector primitives *)

Definition is_registered (s : sock) (w : world) : bool :=
  existsb (fun k => Nat.eqb s (fst k)) (w_reg w).
Definition is_closed (s : sock) (w : world) : bool := existsb (Nat.eqb s) (w_closed w).

(** [socket.socket()] and [accept()] hand out a fresh socket. *)
Definition new_socket : PyM sock :=
  fun w => (Ok (w_next w), set_next (S (w_next w)) w).

(** [sock.close()]: a no-op on a closed socket. *)
Definition sock_close (s : sock) : PyM unit :=
  fun w => if is_closed s w then (Ok tt, w) else (Ok tt, set_closed (w_closed w ++ [s]) w).

(** [sock.setblocking(False)]: [EBADF] on a closed socket. *)
Definition setblocking (s : sock) : PyM unit :=
  fun w => if is_closed s w then (Exc OSError, w) else (Ok tt, w).

(** [self.sel.register(s, EVENT_READ, data)]: a closed socket has no
    file descriptor ([ValueError]), a registered one is refused
    ([KeyError]). *)
Definition sel_register (s : sock) (d : reg_data) : PyM unit :=
  fun w =>
    if is_closed s w then (Exc ValueError, w)
    else if is_registered s w then (Exc KeyError, w)
    else (Ok tt, set_reg (w_reg w ++ [(s, d)]) w).

(** [self.sel.unregister(s)]: [KeyError] when [s] is not registered. *)
Definition sel_unregister (s : sock) : PyM unit :=
  fun w =>
    if is_registered s w
    then (Ok tt, set_reg (filter (fun k => negb (Nat.eqb s (fst k))) (w_reg w)) w)
    else (Exc KeyError, w).

(** [self.sel.close()]: the map is dropped. *)
Definition sel_close : PyM unit := modify (fun w => set_reg [] (set_sel_closed true w)).

(** What the peer's socket answers to one [send] or [recv] call. *)
Inductive send_answer :=
| Sent (n : nat)
| SendRaises (e : exn).

Inductive recv_answer :=
| Received (bs : list byte)
| RecvRaises (e : exn).

(** [conn.send(chunk)]: the socket accepts the first [n] bytes. *)
Definition sock_send (conn : sock) (chunk : list byte) (a : send_answer) : PyM nat :=
  fun w =>
    if is_closed conn w then (Exc OSError, w)
    else match a with
         | Sent n => (Ok n, set_wire (w_wire w ++ [(conn, firstn n chunk)]) w)
         | SendRaises e => (Exc e, w)
         end.

(** [sock.recv(4096)] *)
Definition sock_recv (s : sock) (a : recv_answer) : PyM (list byte) :=
  fun w =>
    if is_closed s w then (Exc OSError, w)
    else match a with
         | Received bs => (Ok (firstn 4096 bs), w)
         | RecvRaises e => (Exc e, w)
         end.

(** All bytes [conn] has accepted so far. *)
Definition sent_to (conn : sock) (w : world) : list byte :=
  List.concat (map snd (filter (fun p => Nat.eqb conn (fst p)) (w_wire w))).

(* ------------------------------------------------------------------ *)
(** ** [safe_send] (source lines 27-53) *)

Definition is_blocking (e : exn) : bool :=
  match e with BlockingIOError => true | _ => false end.

(** The [while totalsent < msg_len] loop.  One [send] answer is used per
    turn; [None] stands for the [continue] after a [BlockingIOError]
    (the [time.sleep(0.001)] takes no modelled effect). *)
Fixpoint send_loop (conn : sock) (msg : list byte) (totalsent : nat)
         (answers : list send_answer) : PyM unit :=
  if totalsent <? List.length msg then
    match answers with
    | [] => stuck
    | a :: rest =>
        next <- try_catch is_blocking
                  (sent <- sock_send conn (skipn totalsent msg) a ;;
                   if Nat.eqb sent 0 then raise RuntimeError
                   else ret (Some (totalsent + sent)))
                  (fun _ => ret None) ;;
        match next with
        | Some t => send_loop conn msg t rest
        | None => send_loop conn msg totalsent rest
        end
    end
  else ret tt.

Definition safe_send (conn : sock) (msg : list byte) (answers : list send_answer) : PyM unit :=
  match msg with
  | [] => ret tt
  | _ =>
      print (LNote "Sending") ;;
      try_catch any_exception (send_loop conn msg 0 answers)
        (fun e => print (LError "safe_send" e))
  end.

(* ------------------------------------------------------------------ *)
(** ** [close_connection] (source lines 156-176) *)

(** [try: op except Exception: pass] *)
Definition try_pass (m : PyM unit) : PyM unit := try_catch any_exception m (fun _ => ret tt).

Definition close_connection (client server : sock) : PyM unit :=
  try_pass (sel_unregister client) ;;
  try_pass (sel_unregister server) ;;
  try_pass (sock_close client) ;;
  try_pass (sock_close server).

(* ------------------------------------------------------------------ *)
(** ** The directional handlers (source lines 106-154) *)

Definition is_reset_or_abort (e : exn) : bool :=
  match e with ConnectionResetError | ConnectionAbortedError => true | _ => false end.

(** The two [except] clauses of a handler: reset/abort first, then any
    [Exception]; both tear the pair down. *)
Definition handler_excepts (side : string) (client server : sock) (body : PyM unit) : PyM unit :=
  try_catch any_exception
    (try_catch is_reset_or_abort body
       (fun _ => print (LNote (side ++ " connection lost")%string) ;; close_connection client server))
    (fun e => print (LError ("reading from " ++ side)%string e) ;; close_connection client server).

(** The [try] block of [read_from_client]. *)
Definition client_relay_body (port : nat) (client server : sock)
           (ra : recv_answer) (sends : list send_answer) : PyM unit :=
  data <- sock_recv client ra ;;
  match data with
  | _ :: _ =>
      let data := rewrite_client_data port data in
      print (LNote "Client -> Server") ;;
      safe_send server data sends
  | [] =>
      print (LNote "Client closed connection") ;;
      close_connection client server
  end.

Definition read_from_client (port : nat) (client server : sock)
           (ra : recv_answer) (sends : list send_answer) : PyM unit :=
  handler_excepts "client" client server (client_relay_body port client server ra sends).

(** The [try] block of [read_from_server]: no rewrite. *)
Definition server_relay_body (client server : sock)
           (ra : recv_answer) (sends : list send_answer) : PyM unit :=
  data <- sock_recv server ra ;;
  match data with
  | _ :: _ =>
      print (LNote "Server -> Client") ;;
      safe_send client data sends
  | [] =>
      print (LNote "Server closed connection") ;;
      close_connection client server
  end.

Definition read_from_server (client server : sock)
           (ra : recv_answer) (sends : list send_answer) : PyM unit :=
  handler_excepts "server" client server (server_relay_body client server ra sends).

(* ------------------------------------------------------------------ *)
(** ** [accept_connection] (source lines 84-104) *)

Inductive accept_answer :=
| AcceptOk
| AcceptRaises (e : exn).

Inductive connect_answer :=
| ConnectOk
| ConnectRaises (e : exn).

(** [sock.accept()] on the listener. *)
Definition sock_accept (listener : sock) (a : accept_answer) : PyM sock :=
  fun w =>
    if is_closed listener w then (Exc OSError, w)
    else match a with
         | AcceptOk => new_socket w
         | AcceptRaises e => (Exc e, w)
         end.

(** [socket.create_connection(("127.0.0.1", port))]: the library closes
    the socket it created before re-raising a failed [connect]. *)
Definition create_connection (a : connect_answer) : PyM sock :=
  s <- new_socket ;;
  match a with
  | ConnectOk => ret s
  | ConnectRaises e => sock_close s ;; raise e
  end.

(** A socket object that nothing refers to any more is freed at once by
    CPython's reference counting, and its finalizer ([socket.__del__])
    closes it.  The selector keeps a reference to a registered socket. *)
Definition release_local (s : sock) : PyM unit :=
  fun w => if is_registered s w then (Ok tt, w) else sock_close s w.

(** The sockets [s], [s+1], ..., [s+k-1] lose their last local reference. *)
Fixpoint release_locals (s : sock) (k : nat) : PyM unit :=
  match k with
  | 0 => ret tt
  | S k => release_local s ;; release_locals (S s) k
  end.

(** When the call returns, its frame goes away with the locals [client]
    and [server]; the sockets the call created (the accepted one, and the
    one [socket.create_connection] made) are referred to by nothing else
    than these locals and the selector. *)
Definition accept_connection (listener : sock) (aa : accept_answer)
           (ca : connect_answer) : PyM unit :=
  w0 <- get_world ;;
  try_catch any_exception
    (client <- sock_accept listener aa ;;
     print (LNote "New connection") ;;
     setblocking client ;;
     server <- create_connection ca ;;
     setblocking server ;;
     sel_register client (RClient client server) ;;
     sel_register server (RServer client server))
    (fun e => print (LError "accepting connection" e)) ;;
  w1 <- get_world ;;
  release_locals (w_next w0) (w_next w1 - w_next w0).

(* ------------------------------------------------------------------ *)
(** ** The event loop and [run] (source lines 239-290) *)

(** What the handler run for one ready key will meet. *)
Record event_oracle := mkOracle {
  eo_accept : accept_answer;
  eo_connect : connect_answer;
  eo_recv : recv_answer;
  eo_sends : list send_answer
}.

(** One answer of [self.sel.select(timeout=1.0)]: the sockets found
    ready, a raised exception, or a [KeyboardInterrupt] while waiting. *)
Inductive select_answer :=
| SelReady (ready : list (sock * event_oracle))
| SelRaises (e : exn)
| SelInterrupt.

(** One turn of the [while]: whether another thread cleared
    [self.running] before its check, and what [select] answers. *)
Record iteration := mkIteration {
  it_stop : bool;
  it_select : select_answer
}.

Definition lookup_key (s : sock) (w : world) : option (sock * reg_data) :=
  find (fun k => Nat.eqb s (fst k)) (w_reg w).

(** [select] reports the registered keys among the ready sockets;
    [None] is the [KeyboardInterrupt]. *)
Definition sel_select (a : select_answer)
  : PyM (option (list ((sock * reg_data) * event_oracle))) :=
  fun w =>
    let w := set_polls (S (w_polls w)) w in
    if w_sel_closed w then (Exc ValueError, w)
    else match a with
         | SelReady ready =>
             (Ok (Some (flat_map (fun '(s, o) =>
                          match lookup_key s w with
                          | Some k => [(k, o)]
                          | None => []
                          end) ready)), w)
         | SelRaises e => (Exc e, w)
         | SelInterrupt => (Ok None, w)
         end.

(** [callback = key.data]: a tuple is a relay handler, otherwise the
    acceptor. *)
Definition dispatch (port : nat) (key : sock * reg_data) (o : event_oracle) : PyM unit :=
  match snd key with
  | RAccept => accept_connection (fst key) (eo_accept o) (eo_connect o)
  | RClient c s => read_from_client port c s (eo_recv o) (eo_sends o)
  | RServer c s => read_from_server c s (eo_recv o) (eo_sends o)
  end.

Fixpoint dispatch_all (port : nat) (evs : list ((sock * reg_data) * event_oracle)) : PyM unit :=
  match evs with
  | [] => ret tt
  | (k, o) :: rest => dispatch port k o ;; dispatch_all port rest
  end.

Definition request_stop : PyM unit := modify (set_running false).

(** The [try] block of one turn: [select], then the handlers; the
    answer is whether the loop goes on ([false] after the [break] of
    [except KeyboardInterrupt]; [except Exception] logs and goes on, the
    [time.sleep(1)] taking no modelled effect). *)
Definition loop_body (port : nat) (a : select_answer) : PyM bool :=
  try_catch any_exception
    (evs <- sel_select a ;;
     match evs with
     | Some evs => dispatch_all port evs ;; ret true
     | None =>
         print (LNote "Shutting down") ;;
         request_stop ;;
         ret false
     end)
    (fun e => print (LError "select loop" e) ;; ret true).

(** [while self.running: ...]; the loop is still running when the
    modelled iterations run out. *)
Fixpoint event_loop (port : nat) (its : list iteration) : PyM unit :=
  match its with
  | [] => stuck
  | it :: rest =>
      (if it_stop it then request_stop else ret tt) ;;
      w <- get_world ;;
      if w_running w then
        go_on <- loop_body port (it_select it) ;;
        if go_on then event_loop port rest else ret tt
      else ret tt
  end.

(** [finally]: close every registered socket ([except: pass]), then
    release the selector. *)
Fixpoint close_all (keys : list (sock * reg_data)) : PyM unit :=
  match keys with
  | [] => ret tt
  | (s, _) :: rest => try_pass (sock_close s) ;; close_all rest
  end.

Definition cleanup : PyM unit :=
  w <- get_world ;;
  close_all (w_reg w) ;;
  sel_close.

Inductive bind_answer :=
| BindOk
| BindRaises (e : exn).

(** [ipv6side.bind(self.addr)] *)
Definition sock_bind (s : sock) (a : bind_answer) : PyM unit :=
  match a with
  | BindOk => ret tt
  | BindRaises e => raise e
  end.

(** The [try] block of [run] after the selector is created. *)
Definition run_body (port : nat) (ba : bind_answer) (its : list iteration) : PyM unit :=
  try_catch any_exception
    (ipv6side <- new_socket ;;
     sock_bind ipv6side ba ;;
     setblocking ipv6side ;;
     sel_register ipv6side RAccept ;;
     print (LNote "Proxy server started successfully") ;;
     event_loop port its)
    (fun e => print (LError "starting proxy server" e)).

Definition run_core (port : nat) (ba : bind_answer) (its : list iteration) : PyM unit :=
  try_finally (run_body port ba its) cleanup.

(* ------------------------------------------------------------------ *)
(** ** Worlds used in the examples *)

(** A fresh process: nothing created yet. *)
Definition empty_world : world := mkWorld [] [] false true 0 0 [] [].

(** The listener 0 registered, nothing accepted yet. *)
Definition listening_world : world := mkWorld [(0, RAccept)] [] false true 1 0 [] [].

(** One accepted pair: client 1, upstream 2. *)
Definition pair_world : world :=
  mkWorld [(0, RAccept); (1, RClient 1 2); (2, RServer 1 2)] [] false true 3 0 [] [].

(** The world of a pair torn down by an earlier handler of the same
    [select] batch: only the listener 0 is left. *)
Definition after_teardown_world : world :=
  mkWorld [(0, RAccept)] [1; 2] false true 3 0 [] [].

(** A pair is torn down: neither socket registered, both closed. *)
Definition torn_down (client server : sock) (w : world) : Prop :=
  is_registered client w = false /\ is_registered server w = false /\
  is_closed client w = true /\ is_closed server w = true.

(** [m] leaves the view [f] of the world unchanged. *)
Definition keeps {X A} (f : world -> X) (m : PyM A) : Prop :=
  forall w, f (snd (m w)) = f w.

(** [m] calls [select] at most [n] times. *)
Definition polls_within {A} (n : nat) (m : PyM A) : Prop :=
  forall w, w_polls (snd (m w)) <= w_polls w + n.

(** [m] keeps the property [P] of the world. *)
Definition preserves {A} (P : world -> Prop) (m : PyM A) : Prop :=
  forall w, P w -> P (snd (m w)).

(** A [send] answer that ends the [while] of [safe_send]: a send of 0
    bytes ([RuntimeError]) or an error other than [BlockingIOError]. *)
Definition fatal_answer (a : send_answer) : bool :=
  match a with
  | Sent 0 => true
  | Sent _ => false
  | SendRaises e => negb (is_blocking e)
  end.

(** A [send] that accepts at least one byte. *)
Definition makes_progress (a : send_answer) : Prop := exists n, a = Sent (S n).

(** The selector map holds only open sockets the program created. *)
Definition sel_ok (w : world) : Prop :=
  forall x d, In (x, d) (w_reg w) -> is_closed x w = false /\ x < w_next w.

(** [sel_ok], and the sockets [xs] are older than [w_next]. *)
Definition ok_with (xs : list sock) (w : world) : Prop :=
  sel_ok w /\ Forall (fun x => x < w_next w) xs.

(** A Hoare triple over [PyM]: from a state in [P], a normal return
    with [a] ends in [Q a]; an exception, or running out of answers,
    ends in [E]. *)
Definition triple {A} (P : world -> Prop) (m : PyM A) (Q : A -> world -> Prop)
           (E : world -> Prop) : Prop :=
  forall w, P w ->
  match m w with
  | (Ok a, w') => Q a w'
  | (_, w') => E w'
  end.

(** The selector map once [client] and [server] are unregistered. *)
Definition drop_pair (client server : sock) (reg : list (sock * reg_data)) :=
  filter (fun k => negb (Nat.eqb client (fst k)) && negb (Nat.eqb server (fst k))) reg.

(* ------------------------------------------------------------------ *)
(** ** Choosing the address to bind to (source lines 200-224)

    In standalone mode without a saved configuration, [run] asks
    [getaddrinfo] for the host's IPv6 addresses, drops the link-local
    ones and, when more than one is left, lets the user pick one by
    number.  Both [int(input(...))] and [getaddrinfo] are inputs here;
    the [print] calls are left out. *)

(** The socket address [addr[4]] of an [AF_INET6] result:
    [(host, port, flowinfo, scope_id)]. *)
Record sockaddr6 := mkSockaddr6 {
  sa_host : string;
  sa_port : nat;
  sa_flowinfo : nat;
  sa_scope_id : nat
}.

(** Python's [l[i]]: a negative index counts from the end; [None] is the
    [IndexError]. *)
Definition py_index {A} (l : list A) (i : Z) : option A :=
  if (0 <=? i)%Z then nth_error l (Z.to_nat i)
  else if (- Z.of_nat (List.length l) <=? i)%Z
       then nth_error l (Z.to_nat (Z.of_nat (List.length l) + i))
       else None.

(** [if not addr[4][0].startswith('fe80')] *)
Definition valid_addrs (addrs : list sockaddr6) : list sockaddr6 :=
  filter (fun a => negb (String.prefix "fe80" (sa_host a))) addrs.

(** Where the block ends: [self.addr] is set, or [run] returns after
    [print("No valid IPv6 addresses found!")], or after the [except
    Exception] ([getaddrinfo] failed, [int] rejected the input, or the
    index is out of range). *)
Inductive addr_choice :=
| Chosen (host : string) (port : nat)
| NoValidAddress
| AddressError.

(** [gai] is [None] when [getaddrinfo] raises; [selection] is what
    [int(input("Enter: "))] returns, [None] when it raises. *)
Definition choose_address (gai : option (list sockaddr6)) (selection : option Z) : addr_choice :=
  match gai with
  | None => AddressError
  | Some addrs =>
      let valid := valid_addrs addrs in
      if 1 <? List.length valid then
        match selection with
        | None => AddressError
        | Some n =>
            match py_index valid (n - 1)%Z with
            | Some a => Chosen (sa_host a) (sa_port a)
            | None => AddressError
            end
        end
      else
        match valid with
        | a :: _ => Chosen (sa_host a) (sa_port a)
        | [] => NoValidAddress
        end
  end.

(** Two usable addresses on this host, and one link-local. *)
Definition example_addrs : list sockaddr6 :=
  [mkSockaddr6 "fe80::1"%string 7245 0 2; mkSockaddr6 "2001:db8::1"%string 7245 0 0;
   mkSockaddr6 "2001:db8::2"%string 7245 0 0].

(* ------------------------------------------------------------------ *)
(** ** Lemmas on the search *)

Lemma prefixb_app (p s : str) : prefixb p (p ++ s) = true.
Proof.
  induction p as [|a p IH]; simpl; [reflexivity|].
  rewrite Ascii.eqb_refl, IH. reflexivity.
Qed.

Lemma prefixb_true (p s : str) :
  prefixb p s = true -> exists post, s = p ++ post.
Proof.
  revert s; induction p as [|a p IH]; intros s H; simpl in *.
  - exists s. reflexivity.
  - destruct s as [|b s]; [discriminate|].
    apply andb_prop in H as [Hab Hp].
    apply Ascii.eqb_eq in Hab; subst b.
    destruct (IH s Hp) as [post ->]. exists post. reflexivity.
Qed.

Lemma close_bracket_sound (t : str) n r :
  close_bracket t = Some (n, r) ->
  exists x, t = x ++ "]"%char :: r /\ no_close x /\ List.length x = n.
Proof.
  revert n r; induction t as [|c t IH]; intros n r H; simpl in H; [discriminate|].
  destruct (Ascii.eqb c "]"%char) eqn:Ec.
  - apply Ascii.eqb_eq in Ec; subst c. injection H as <- <-.
    exists []. repeat split. intros [].
  - destruct (close_bracket t) as [[n' r']|] eqn:Et; [|discriminate].
    injection H as <- <-.
    destruct (IH _ _ eq_refl) as (x & -> & Hx & <-).
    exists (c :: x). repeat split.
    intros [Hc|Hin]; [subst c; rewrite Ascii.eqb_refl in Ec; discriminate|].
    exact (Hx Hin).
Qed.

Lemma close_bracket_complete (x r : str) :
  no_close x -> close_bracket (x ++ "]"%char :: r) = Some (List.length x, r).
Proof.
  induction x as [|c x IH]; intros Hx; simpl; [reflexivity|].
  destruct (Ascii.eqb c "]"%char) eqn:Ec.
  - apply Ascii.eqb_eq in Ec. exfalso. apply Hx. left. exact Ec.
  - rewrite IH; [reflexivity|]. intros Hin. apply Hx. right. exact Hin.
Qed.

Lemma match_at_sound tail s len :
  match_at tail s = Some len ->
  exists x post, no_close x /\ s = "["%char :: x ++ "]"%char :: tail ++ post
                 /\ len = S (S (List.length x + List.length tail)).
Proof.
  destruct s as [|c t]; simpl; [discriminate|].
  destruct (Ascii.eqb c "["%char) eqn:Ec; [|discriminate].
  apply Ascii.eqb_eq in Ec; subst c.
  destruct (close_bracket t) as [[n r]|] eqn:Et; [|discriminate].
  destruct (prefixb tail r) eqn:Ep; [|discriminate].
  intros H; injection H as <-.
  destruct (close_bracket_sound _ _ _ Et) as (x & -> & Hx & <-).
  destruct (prefixb_true _ _ Ep) as [post ->].
  exists x, post. repeat split. exact Hx.
Qed.

Lemma match_at_complete tail x post :
  no_close x ->
  match_at tail ("["%char :: x ++ "]"%char :: tail ++ post)
  = Some (S (S (List.length x + List.length tail))).
Proof.
  intros Hx; unfold match_at. rewrite Ascii.eqb_refl.
  rewrite (close_bracket_complete x (tail ++ post) Hx), prefixb_app.
  reflexivity.
Qed.

Lemma search_from_sound tail i s st en :
  search_from tail i s = Some (st, en) ->
  exists pre x post,
    no_close x /\ s = pre ++ "["%char :: x ++ "]"%char :: tail ++ post /\
    st = i + List.length pre /\
    en = st + S (S (List.length x + List.length tail)).
Proof.
  revert i; induction s as [|c t IH]; intros i H; cbn [search_from] in H.
  - discriminate.
  - destruct (match_at tail (c :: t)) as [len|] eqn:Em.
    + injection H as <- <-.
      destruct (match_at_sound _ _ _ Em) as (x & post & Hx & Hs & ->).
      exists [], x, post. rewrite Hs. repeat split; [exact Hx|simpl; lia].
    + destruct (IH _ H) as (pre & x & post & Hx & -> & -> & ->).
      exists (c :: pre), x, post. repeat split; [exact Hx|simpl; lia].
Qed.

(** The search is leftmost: no match starts before the reported one, and
    none at all when it reports none. *)
Lemma search_from_leftmost tail i s :
  forall k, (match search_from tail i s with
             | Some (st, _) => k + i < st
             | None => True end) ->
  match_at tail (skipn k s) = None.
Proof.
  revert i; induction s as [|c t IH]; intros i k Hk.
  - destruct k; reflexivity.
  - cbn [search_from] in Hk. destruct (match_at tail (c :: t)) as [len|] eqn:Em.
    + lia.
    + destruct k as [|k]; [exact Em|].
      simpl. apply (IH (S i)).
      destruct (search_from tail (S i) t) as [[st en]|]; [lia|exact I].
Qed.

Lemma ip6_occurrence_shape port x post :
  ip6_occurrence port x ++ post
  = "["%char :: x ++ "]"%char :: (":"%char :: port_str port) ++ post.
Proof. unfold ip6_occurrence. simpl. rewrite <- app_assoc. reflexivity. Qed.

Lemma ip6_occurrence_length port x :
  List.length (ip6_occurrence port x)
  = S (S (List.length x + List.length (":"%char :: port_str port))).
Proof. unfold ip6_occurrence. simpl. rewrite length_app. simpl. lia. Qed.

Lemma skipn_prefix {A} (pre rest : list A) : skipn (List.length pre) (pre ++ rest) = rest.
Proof. induction pre; simpl; auto. Qed.

Lemma slice_middle (pre m post : str) :
  slice (List.length pre) (List.length pre + List.length m) (pre ++ m ++ post) = m.
Proof.
  unfold slice. rewrite skipn_prefix.
  replace (List.length pre + List.length m - List.length pre) with (List.length m) by lia.
  rewrite firstn_app, firstn_all, Nat.sub_diag. simpl. apply app_nil_r.
Qed.

(** A pattern occurrence is found by the search. *)
Lemma ip6_search_complete port s :
  has_ip6_pattern port s -> exists span, ip6_search port s = Some span.
Proof.
  intros (pre & x & post & Hx & Hs).
  destruct (ip6_search port s) as [span|] eqn:E; [eauto|].
  exfalso.
  pose proof (search_from_leftmost (":"%char :: port_str port) 0 s (List.length pre))
    as Hl.
  unfold ip6_search in E. rewrite E in Hl.
  specialize (Hl I). rewrite Hs, skipn_prefix, ip6_occurrence_shape in Hl.
  rewrite match_at_complete in Hl by exact Hx. discriminate.
Qed.

(* ------------------------------------------------------------------ *)
(** ** Lemmas on [str.replace] *)

Section Replace.
Variables old new : str.

Lemma replace_skip (x post : str) :
  replace_aux old new (List.length x) (x ++ post) = replace_aux old new 0 post.
Proof. induction x as [|c x IH]; simpl; auto. Qed.

Lemma replace_no_occurrence (pre rest : str) :
  (forall k, k < List.length pre -> prefixb old (skipn k (pre ++ rest)) = false) ->
  replace_aux old new 0 (pre ++ rest) = pre ++ replace_aux old new 0 rest.
Proof.
  induction pre as [|c pre IH]; intros H; simpl; [reflexivity|].
  pose proof (H 0 ltac:(simpl; lia)) as H0. simpl in H0. rewrite H0.
  f_equal. apply IH. intros k Hk. apply (H (S k)). simpl. lia.
Qed.

Lemma replace_identity (post : str) :
  (forall k, prefixb old (skipn k post) = false) ->
  replace_aux old new 0 post = post.
Proof.
  intros H. rewrite <- (app_nil_r post) at 1.
  rewrite replace_no_occurrence; [apply app_nil_r|].
  intros k _. rewrite app_nil_r. apply H.
Qed.
End Replace.

Lemma replace_at_occurrence (old new post : str) :
  old <> [] -> replace_aux old new 0 (old ++ post) = new ++ replace_aux old new 0 post.
Proof.
  destruct old as [|c o]; [congruence|intros _].
  simpl. rewrite Ascii.eqb_refl, prefixb_app. simpl.
  f_equal. apply (replace_skip (c :: o) new o post).
Qed.

Lemma no_occurrence_before port s st en k x r :
  ip6_search port s = Some (st, en) -> k < st -> no_close x ->
  skipn k s <> ip6_occurrence port x ++ r.
Proof.
  intros E Hk Hx Hs.
  pose proof (search_from_leftmost (":"%char :: port_str port) 0 s k) as Hl.
  unfold ip6_search in E. rewrite E in Hl. specialize (Hl ltac:(lia)).
  rewrite Hs, ip6_occurrence_shape, match_at_complete in Hl by exact Hx.
  discriminate.
Qed.

Lemma decode_encode_latin1 (s : str) : decode_latin1 (encode_latin1 s) = s.
Proof.
  unfold decode_latin1, encode_latin1. rewrite map_map.
  rewrite (map_ext _ (fun a => a)) by apply ascii_of_byte_of_ascii.
  apply map_id.
Qed.

(* ------------------------------------------------------------------ *)
(** ** Theorems on the client-to-server rewrite *)

(** C1 (amended): when the pattern occurs, the rewrite keeps the text
    before the leftmost match, puts [127.0.0.1:PORT] in place of that
    match, and in the rest of the buffer replaces every further
    non-overlapping copy of the same matched text (Python's
    [str.replace]); a rest holding no copy of that text is kept
    byte-identical. *)
Theorem rewrite_replaces_first_match_text (port : nat) (data : list byte) :
  has_ip6_pattern port (decode_latin1 data) ->
  exists pre x post,
    no_close x /\
    decode_latin1 data = pre ++ ip6_occurrence port x ++ post /\
    (forall pre' x' post', no_close x' ->
        decode_latin1 data = pre' ++ ip6_occurrence port x' ++ post' ->
        List.length pre <= List.length pre') /\
    rewrite_client_data port data
    = encode_latin1 (pre ++ loopback_literal port
                     ++ py_replace (ip6_occurrence port x) (loopback_literal port) post) /\
    ((forall k, prefixb (ip6_occurrence port x) (skipn k post) = false) ->
     rewrite_client_data port data
     = encode_latin1 (pre ++ loopback_literal port ++ post)).
Proof.
  intros Hp.
  destruct (ip6_search_complete _ _ Hp) as [[st en] E].
  pose proof E as E'. unfold ip6_search in E'.
  destruct (search_from_sound _ _ _ _ _ E') as (pre & x & post & Hx & Hs & Hst & Hen).
  simpl in Hst. rewrite <- ip6_occurrence_shape in Hs.
  rewrite <- ip6_occurrence_length in Hen.
  set (occ := ip6_occurrence port x) in *.
  set (s := decode_latin1 data) in *.
  assert (Hleft : forall pre' x' post', no_close x' ->
            s = pre' ++ ip6_occurrence port x' ++ post' ->
            List.length pre <= List.length pre').
  { intros pre' x' post' Hx' Hs'.
    destruct (Nat.lt_ge_cases (List.length pre') (List.length pre)) as [Hlt|]; [|assumption].
    exfalso. apply (no_occurrence_before port s st en (List.length pre') x' post' E);
      [lia|exact Hx'|]. rewrite Hs'. apply skipn_prefix. }
  assert (Hrw : rewrite_client_data port data
                = encode_latin1 (pre ++ loopback_literal port
                                 ++ py_replace occ (loopback_literal port) post)).
  { unfold rewrite_client_data. fold s. rewrite E, Hen, Hst, Hs, slice_middle.
    unfold py_replace. rewrite replace_no_occurrence.
    - rewrite replace_at_occurrence; [reflexivity|]. unfold occ, ip6_occurrence. discriminate.
    - intros k Hk. destruct (prefixb occ _) eqn:Hpre; [exfalso|reflexivity].
      destruct (prefixb_true _ _ Hpre) as [r Hr].
      apply (no_occurrence_before port s st en k x r E); [lia|exact Hx|].
      rewrite Hs. exact Hr. }
  exists pre, x, post. repeat split; [exact Hx|exact Hs|exact Hleft|exact Hrw|].
  intros Hnone. rewrite Hrw. unfold py_replace. rewrite replace_identity by exact Hnone.
  reflexivity.
Qed.

Lemma rewrite_replaces_first_match_text_witness :
  has_ip6_pattern 7245 (decode_latin1 (encode_latin1 (lit "a[::1]:7245 b[::1]:7245"))) /\
  exists pre x post,
    no_close x /\
    decode_latin1 (encode_latin1 (lit "a[::1]:7245 b[::1]:7245"))
      = pre ++ ip6_occurrence 7245 x ++ post /\
    (forall pre' x' post', no_close x' ->
        decode_latin1 (encode_latin1 (lit "a[::1]:7245 b[::1]:7245"))
          = pre' ++ ip6_occurrence 7245 x' ++ post' ->
        List.length pre <= List.length pre') /\
    rewrite_client_data 7245 (encode_latin1 (lit "a[::1]:7245 b[::1]:7245"))
    = encode_latin1 (pre ++ loopback_literal 7245
                     ++ py_replace (ip6_occurrence 7245 x) (loopback_literal 7245) post) /\
    ((forall k, prefixb (ip6_occurrence 7245 x) (skipn k post) = false) ->
     rewrite_client_data 7245 (encode_latin1 (lit "a[::1]:7245 b[::1]:7245"))
     = encode_latin1 (pre ++ loopback_literal 7245 ++ post)).
Proof.
  assert (Hp : has_ip6_pattern 7245 (decode_latin1 (encode_latin1 (lit "a[::1]:7245 b[::1]:7245")))).
  { exists (lit "a"), (lit "::1"), (lit " b[::1]:7245"). split.
    - simpl. intros H. repeat (destruct H as [H|H]; [discriminate|]). exact H.
    - vm_compute. reflexivity. }
  split; [exact Hp|].
  exact (rewrite_replaces_first_match_text 7245 _ Hp).
Defined.

(** C1 counterexample: with two identical occurrences, the second one is
    rewritten too instead of being kept byte-identical. *)
Lemma rewrite_second_occurrence_not_kept :
  has_ip6_pattern 7245 (lit "[::1]:7245 [::1]:7245") /\
  rewrite_client_data 7245 (encode_latin1 (lit "[::1]:7245 [::1]:7245"))
  = encode_latin1 (lit "127.0.0.1:7245 127.0.0.1:7245") /\
  rewrite_client_data 7245 (encode_latin1 (lit "[::1]:7245 [::1]:7245"))
  <> encode_latin1 (lit "127.0.0.1:7245 [::1]:7245").
Proof.
  split; [|split].
  - exists [], (lit "::1"), (lit " [::1]:7245"). split.
    + simpl. intros H. repeat (destruct H as [H|H]; [discriminate|]). exact H.
    + vm_compute. reflexivity.
  - vm_compute. reflexivity.
  - vm_compute. discriminate.
Qed.

(** C5: a buffer whose ISO-8859-1 text holds no bracketed literal
    followed by [:PORT] is forwarded byte-identical. *)
Theorem rewrite_identity_without_pattern (port : nat) (data : list byte) :
  ~ has_ip6_pattern port (decode_latin1 data) ->
  rewrite_client_data port data = data.
Proof.
  intros Hno. unfold rewrite_client_data.
  destruct (ip6_search port (decode_latin1 data)) as [[st en]|] eqn:E; [|reflexivity].
  exfalso. apply Hno. unfold ip6_search in E.
  destruct (search_from_sound _ _ _ _ _ E) as (pre & x & post & Hx & Hs & _).
  exists pre, x, post. split; [exact Hx|]. rewrite ip6_occurrence_shape. exact Hs.
Qed.

Lemma rewrite_identity_without_pattern_witness :
  ~ has_ip6_pattern 7245 (decode_latin1 (http_get_host "[::1]:8080")) /\
  rewrite_client_data 7245 (http_get_host "[::1]:8080") = http_get_host "[::1]:8080".
Proof.
  assert (H : ~ has_ip6_pattern 7245 (decode_latin1 (http_get_host "[::1]:8080"))).
  { intros Hp. destruct (ip6_search_complete _ _ Hp) as [span Hs].
    vm_compute in Hs. discriminate. }
  split; [exact H|].
  exact (rewrite_identity_without_pattern 7245 _ H).
Defined.

(** C7: the request [GET / HTTP/1.1\r\nHost: [fe80::1]:7245\r\n\r\n] is
    forwarded as [GET / HTTP/1.1\r\nHost: 127.0.0.1:7245\r\n\r\n]. *)
Theorem rewrite_host_header_example :
  rewrite_client_data 7245 (http_get_host "[fe80::1]:7245")
  = http_get_host "127.0.0.1:7245".
Proof. vm_compute. reflexivity. Qed.

(** C10: the port is not anchored at a digit boundary: [\[::1\]:72450]
    with target port 7245 is rewritten to [127.0.0.1:72450]. *)
Theorem rewrite_port_prefix_fires :
  rewrite_client_data 7245 (http_get_host "[::1]:72450")
  = http_get_host "127.0.0.1:72450".
Proof. vm_compute. reflexivity. Qed.

(* ------------------------------------------------------------------ *)
(** ** Frame lemmas: what a computation leaves untouched *)

Section Frame.
Context {X : Type} (f : world -> X).

Lemma keeps_ret {A} (a : A) : keeps f (ret a).
Proof. intros w. reflexivity. Qed.

Lemma keeps_raise {A} (e : exn) : keeps f (@raise A e).
Proof. intros w. reflexivity. Qed.

Lemma keeps_stuck {A} : keeps f (@stuck A).
Proof. intros w. reflexivity. Qed.

Lemma keeps_get : keeps f get_world.
Proof. intros w. reflexivity. Qed.

Lemma keeps_bind {A B} (m : PyM A) (k : A -> PyM B) :
  keeps f m -> (forall a, keeps f (k a)) -> keeps f (bind m k).
Proof.
  intros Hm Hk w. unfold bind. specialize (Hm w).
  destruct (m w) as [[a|e|] w'] eqn:E; simpl in *; [rewrite Hk|..]; exact Hm.
Qed.

Lemma keeps_try_catch {A} (p : exn -> bool) (m : PyM A) (h : exn -> PyM A) :
  keeps f m -> (forall e, keeps f (h e)) -> keeps f (try_catch p m h).
Proof.
  intros Hm Hh w. unfold try_catch. specialize (Hm w).
  destruct (m w) as [[a|e|] w'] eqn:E; simpl in *; try exact Hm.
  destruct (p e); simpl; [rewrite Hh|]; exact Hm.
Qed.

Lemma keeps_bind_r {A B} (m : PyM A) (k : A -> PyM B) :
  (forall a, keeps f (k a)) -> forall w, f (snd (bind m k w)) = f (snd (m w)).
Proof.
  intros Hk w. unfold bind.
  destruct (m w) as [[a|e|] w'] eqn:E; simpl; [apply Hk|reflexivity|reflexivity].
Qed.

Lemma keeps_try_r {A} (p : exn -> bool) (m : PyM A) (h : exn -> PyM A) :
  (forall e, keeps f (h e)) -> forall w, f (snd (try_catch p m h w)) = f (snd (m w)).
Proof.
  intros Hh w. unfold try_catch.
  destruct (m w) as [[a|e|] w'] eqn:E; simpl; try reflexivity.
  destruct (p e); simpl; [apply Hh|reflexivity].
Qed.
End Frame.

Create HintDb frame.

Ltac frame :=
  repeat first
    [ apply keeps_bind; [|intros ?; cbv beta]
    | apply keeps_try_catch; [|intros ?]
    | apply keeps_ret | apply keeps_raise | apply keeps_stuck | apply keeps_get
    | match goal with |- keeps _ (match ?x with _ => _ end) => destruct x end
    | match goal with |- keeps _ (if ?x then _ else _) => destruct x end
    | solve [eauto with frame] ].

(** Unfold a primitive and close every branch by computation. *)
Ltac prim :=
  let w := fresh "w" in
  intros w;
  repeat match goal with
         | |- context [if ?b then _ else _] => destruct b
         | |- context [match ?x with _ => _ end] => destruct x
         end; reflexivity.

(** Only [select] counts a poll. *)
Lemma polls_print l : keeps w_polls (print l). Proof. unfold print, modify; prim. Qed.
Lemma polls_close s : keeps w_polls (sock_close s). Proof. unfold sock_close; prim. Qed.
Lemma polls_setblocking s : keeps w_polls (setblocking s). Proof. unfold setblocking; prim. Qed.
Lemma polls_register s d : keeps w_polls (sel_register s d). Proof. unfold sel_register; prim. Qed.
Lemma polls_unregister s : keeps w_polls (sel_unregister s). Proof. unfold sel_unregister; prim. Qed.
Lemma polls_send c m a : keeps w_polls (sock_send c m a). Proof. unfold sock_send; prim. Qed.
Lemma polls_recv s a : keeps w_polls (sock_recv s a). Proof. unfold sock_recv; prim. Qed.
Lemma polls_accept l a : keeps w_polls (sock_accept l a). Proof. unfold sock_accept, new_socket; prim. Qed.
Lemma polls_new : keeps w_polls new_socket. Proof. unfold new_socket; prim. Qed.
Lemma polls_stop : keeps w_polls request_stop. Proof. unfold request_stop, modify; prim. Qed.
Lemma polls_sel_close : keeps w_polls sel_close. Proof. unfold sel_close, modify; prim. Qed.

Lemma polls_release_local s : keeps w_polls (release_local s).
Proof. unfold release_local, sock_close; prim. Qed.

#[local] Hint Resolve polls_print polls_close polls_setblocking polls_register
  polls_unregister polls_send polls_recv polls_accept polls_new polls_stop
  polls_sel_close polls_release_local : frame.

Lemma polls_release_locals s k : keeps w_polls (release_locals s k).
Proof. revert s; induction k as [|k IH]; intros s; simpl; frame. Qed.
#[local] Hint Resolve polls_release_locals : frame.

Lemma polls_send_loop c m t answers : keeps w_polls (send_loop c m t answers).
Proof.
  revert t; induction answers as [|a rest IH]; intros t; simpl;
    destruct (t <? List.length m); frame.
Qed.
#[local] Hint Resolve polls_send_loop : frame.

Lemma polls_safe_send c m answers : keeps w_polls (safe_send c m answers).
Proof. unfold safe_send; frame. Qed.
#[local] Hint Resolve polls_safe_send : frame.

Lemma polls_close_connection c s : keeps w_polls (close_connection c s).
Proof. unfold close_connection, try_pass; frame. Qed.
#[local] Hint Resolve polls_close_connection : frame.

Lemma polls_dispatch port k o : keeps w_polls (dispatch port k o).
Proof.
  unfold dispatch, accept_connection, read_from_client, read_from_server,
    client_relay_body, server_relay_body, handler_excepts, create_connection; frame.
Qed.
#[local] Hint Resolve polls_dispatch : frame.

Lemma polls_dispatch_all port evs : keeps w_polls (dispatch_all port evs).
Proof. induction evs as [|[k o] evs IH]; simpl; frame. Qed.
#[local] Hint Resolve polls_dispatch_all : frame.

Lemma polls_close_all keys : keeps w_polls (close_all keys).
Proof. induction keys as [|[s d] keys IH]; simpl; unfold try_pass; frame. Qed.

Lemma polls_cleanup : keeps w_polls cleanup.
Proof. unfold cleanup. frame. apply polls_close_all. Qed.

Lemma polls_sel_select a w : w_polls (snd (sel_select a w)) = S (w_polls w).
Proof. unfold sel_select. simpl. destruct (w_sel_closed w), a; reflexivity. Qed.

Lemma polls_loop_body port a w : w_polls (snd (loop_body port a w)) = S (w_polls w).
Proof.
  unfold loop_body. rewrite keeps_try_r by (intros; frame).
  rewrite keeps_bind_r by (intros [evs|]; frame).
  apply polls_sel_select.
Qed.

(** The loop polls at most [k] times when the flag is found cleared at
    the check of turn [k]. *)
Lemma event_loop_polls port its :
  forall w k it, nth_error its k = Some it -> it_stop it = true ->
  w_polls (snd (event_loop port its w)) <= w_polls w + k.
Proof.
  induction its as [|it0 rest IH]; intros w k it Hk Hs.
  - destruct k; discriminate.
  - assert (Hpre : exists w1, (if it_stop it0 then request_stop else ret tt) w = (Ok tt, w1)
                              /\ w_polls w1 = w_polls w
                              /\ (it_stop it0 = true -> w_running w1 = false)).
    { destruct (it_stop it0); eexists; repeat split; discriminate. }
    destruct Hpre as (w1 & E1 & P1 & R1).
    cbn [event_loop]. unfold bind at 1. rewrite E1.
    unfold bind at 1, get_world.
    destruct k as [|k].
    + simpl in Hk. injection Hk as ->. rewrite (R1 Hs). simpl. lia.
    + simpl in Hk. destruct (w_running w1); [|simpl; lia].
      unfold bind at 1.
      pose proof (polls_loop_body port (it_select it0) w1) as HP.
      destruct (loop_body port (it_select it0) w1) as [[b|e|] w2] eqn:E2; simpl in HP |- *;
        [destruct b; [specialize (IH w2 k it Hk Hs)|]|..]; simpl; lia.
Qed.

Lemma within_bind {A B} n (m : PyM A) (k : A -> PyM B) :
  keeps w_polls m -> (forall a, polls_within n (k a)) -> polls_within n (bind m k).
Proof.
  intros Hm Hk w. unfold bind. specialize (Hm w).
  destruct (m w) as [[a|e|] w'] eqn:E; simpl in *; [rewrite <- Hm; apply Hk|lia|lia].
Qed.

Lemma within_try {A} n p (m : PyM A) (h : exn -> PyM A) :
  polls_within n m -> (forall e, keeps w_polls (h e)) -> polls_within n (try_catch p m h).
Proof.
  intros Hm Hh w. unfold try_catch. specialize (Hm w).
  destruct (m w) as [[a|e|] w'] eqn:E; simpl in *; try lia.
  destruct (p e); simpl; [rewrite Hh|]; lia.
Qed.

Lemma within_finally {A} n (m : PyM A) (f : PyM unit) :
  polls_within n m -> keeps w_polls f -> polls_within n (try_finally m f).
Proof.
  intros Hm Hf w. unfold try_finally. specialize (Hm w).
  destruct (m w) as [r w1] eqn:E; simpl in *.
  pose proof (Hf w1) as H1.
  destruct r; try (simpl; lia);
    destruct (f w1) as [[u|e'|] w2]; simpl in *; lia.
Qed.

Lemma polls_bind_answer s a : keeps w_polls (sock_bind s a).
Proof. unfold sock_bind; frame. Qed.
#[local] Hint Resolve polls_bind_answer : frame.

Lemma run_core_polls port ba its k it :
  nth_error its k = Some it -> it_stop it = true ->
  polls_within k (run_core port ba its).
Proof.
  intros Hk Hs. unfold run_core. apply within_finally; [|apply polls_cleanup].
  unfold run_body. apply within_try; [|intros; frame].
  repeat (apply within_bind; [frame|intros ?]).
  intros w. exact (event_loop_polls port its w k it Hk Hs).
Qed.

(** [close()] leaves a socket closed and never reopens one. *)
Lemma is_closed_after_close s w :
  is_closed s (snd (sock_close s w)) = true /\
  (forall s', is_closed s' w = true -> is_closed s' (snd (sock_close s w)) = true).
Proof.
  unfold sock_close. destruct (is_closed s w) eqn:E; simpl; [auto|].
  unfold is_closed in *; simpl. split.
  - rewrite existsb_app. simpl. rewrite Nat.eqb_refl. apply orb_true_r.
  - intros s' H. rewrite existsb_app. apply orb_true_iff. left. exact H.
Qed.

Lemma bind_ok {A B} (m : PyM A) (k : A -> PyM B) w a w' :
  m w = (Ok a, w') -> bind m k w = k a w'.
Proof. intros E. unfold bind. rewrite E. reflexivity. Qed.

Lemma try_pass_close s w : try_pass (sock_close s) w = (Ok tt, snd (sock_close s w)).
Proof. unfold try_pass, try_catch, sock_close. destruct (is_closed s w); reflexivity. Qed.

Lemma close_all_spec keys :
  forall w, fst (close_all keys w) = Ok tt /\
  (forall s, In s (map fst keys) -> is_closed s (snd (close_all keys w)) = true) /\
  (forall s, is_closed s w = true -> is_closed s (snd (close_all keys w)) = true).
Proof.
  induction keys as [|[s d] keys IH]; intros w; simpl.
  - repeat split; [intros s []|auto].
  - rewrite (bind_ok _ _ _ _ _ (try_pass_close s w)).
    destruct (is_closed_after_close s w) as [Hs Hmono].
    destruct (IH (snd (sock_close s w))) as (Hr & Hin & Hm).
    repeat split; [exact Hr| |].
    + intros s' [<-|Hs']; [apply Hm, Hs|apply Hin, Hs'].
    + intros s' H. apply Hm, Hmono, H.
Qed.

Lemma cleanup_spec w :
  fst (cleanup w) = Ok tt /\ w_sel_closed (snd (cleanup w)) = true /\
  forall s, In s (map fst (w_reg w)) -> is_closed s (snd (cleanup w)) = true.
Proof.
  unfold cleanup, get_world, bind at 1. cbv beta.
  destruct (close_all_spec (w_reg w) w) as (Hr & Hin & _).
  unfold bind. destruct (close_all (w_reg w) w) as [r w1]. simpl in Hr, Hin. subst r.
  repeat split. intros s H. apply Hin in H. exact H.
Qed.

(** [except Exception] with a handler that returns lets nothing out. *)
Lemma try_any_no_exc {A} (m : PyM A) (h : exn -> PyM A) w e :
  (forall e' w', fst (h e' w') <> Exc e) -> fst (try_catch any_exception m h w) <> Exc e.
Proof.
  intros Hh. unfold try_catch.
  destruct (m w) as [[a|e'|] w1]; simpl; [discriminate|apply Hh|discriminate].
Qed.

(** [run]'s [try] block never lets an [Exception] out. *)
Lemma run_body_no_exc port ba its w e : fst (run_body port ba its w) <> Exc e.
Proof.
  unfold run_body. apply try_any_no_exc. intros e' w'. discriminate.
Qed.

(* ------------------------------------------------------------------ *)
(** ** Theorems on the event loop *)

(** C9: when the run flag is found cleared at the check of turn [k]
    (set by another thread, or by the [KeyboardInterrupt] branch), [run]
    has polled at most [k] times; and when [run] returns, every socket
    still registered when the loop ended is closed and the selector is
    released. *)
Theorem run_stops_and_closes_all (port : nat) (ba : bind_answer) (its : list iteration)
        (w : world) (k : nat) (it : iteration) :
  nth_error its k = Some it -> it_stop it = true ->
  w_polls (snd (run_core port ba its w)) <= w_polls w + k /\
  (fst (run_body port ba its w) <> Stuck ->
   fst (run_core port ba its w) = Ok tt /\
   w_sel_closed (snd (run_core port ba its w)) = true /\
   forall s, In s (map fst (w_reg (snd (run_body port ba its w)))) ->
             is_closed s (snd (run_core port ba its w)) = true).
Proof.
  intros Hk Hs. split; [exact (run_core_polls port ba its k it Hk Hs w)|].
  intros Hns. unfold run_core, try_finally.
  pose proof (run_body_no_exc port ba its w) as Hne.
  destruct (run_body port ba its w) as [r w1]. simpl in Hns, Hne |- *.
  destruct (cleanup_spec w1) as (Hc & Hsel & Hin).
  destruct (cleanup w1) as [c w2]. simpl in Hc, Hsel, Hin. subst c.
  destruct r as [[]|e|]; [|exfalso; exact (Hne e eq_refl)|contradiction].
  simpl. repeat split; [exact Hsel|exact Hin].
Qed.

Lemma run_stops_and_closes_all_witness :
  nth_error [mkIteration false (SelReady [(0, mkOracle AcceptOk ConnectOk (Received []) [])]);
             mkIteration true (SelRaises OSError)] 1
    = Some (mkIteration true (SelRaises OSError)) /\
  it_stop (mkIteration true (SelRaises OSError)) = true /\
  w_polls (snd (run_core 7245 BindOk
     [mkIteration false (SelReady [(0, mkOracle AcceptOk ConnectOk (Received []) [])]);
      mkIteration true (SelRaises OSError)] empty_world)) <= w_polls empty_world + 1 /\
  (fst (run_body 7245 BindOk
     [mkIteration false (SelReady [(0, mkOracle AcceptOk ConnectOk (Received []) [])]);
      mkIteration true (SelRaises OSError)] empty_world) <> Stuck ->
   fst (run_core 7245 BindOk
     [mkIteration false (SelReady [(0, mkOracle AcceptOk ConnectOk (Received []) [])]);
      mkIteration true (SelRaises OSError)] empty_world) = Ok tt /\
   w_sel_closed (snd (run_core 7245 BindOk
     [mkIteration false (SelReady [(0, mkOracle AcceptOk ConnectOk (Received []) [])]);
      mkIteration true (SelRaises OSError)] empty_world)) = true /\
   forall s, In s (map fst (w_reg (snd (run_body 7245 BindOk
     [mkIteration false (SelReady [(0, mkOracle AcceptOk ConnectOk (Received []) [])]);
      mkIteration true (SelRaises OSError)] empty_world)))) ->
     is_closed s (snd (run_core 7245 BindOk
     [mkIteration false (SelReady [(0, mkOracle AcceptOk ConnectOk (Received []) [])]);
      mkIteration true (SelRaises OSError)] empty_world)) = true).
Proof.
  assert (Hk : nth_error [mkIteration false (SelReady [(0, mkOracle AcceptOk ConnectOk (Received []) [])]);
                          mkIteration true (SelRaises OSError)] 1
               = Some (mkIteration true (SelRaises OSError))) by reflexivity.
  assert (Hs : it_stop (mkIteration true (SelRaises OSError)) = true) by reflexivity.
  split; [exact Hk|split; [exact Hs|]].
  exact (run_stops_and_closes_all 7245 BindOk _ empty_world 1 _ Hk Hs).
Defined.

(* ------------------------------------------------------------------ *)
(** ** [safe_send] *)

Lemma sent_to_set_wire conn c w :
  sent_to conn (set_wire (w_wire w ++ [(conn, c)]) w) = sent_to conn w ++ c.
Proof.
  unfold sent_to. simpl. rewrite filter_app. simpl. rewrite Nat.eqb_refl.
  rewrite map_app, concat_app. simpl. rewrite app_nil_r. reflexivity.
Qed.

Lemma skipn_nonempty (msg : list byte) t : t < List.length msg -> skipn t msg <> [].
Proof.
  intros H E. apply (f_equal (@List.length byte)) in E.
  rewrite length_skipn in E. simpl in E. lia.
Qed.

(** The bytes the socket accepts during the loop are the next bytes of
    the buffer; the loop ends normally only with the buffer exhausted,
    and raises only with bytes left. *)
Lemma send_loop_accounting conn msg answers :
  forall t w,
  let '(r, w') := send_loop conn msg t answers w in
  exists sent rest,
    skipn t msg = sent ++ rest /\
    sent_to conn w' = sent_to conn w ++ sent /\
    (r = Ok tt -> rest = []) /\
    (forall e, r = Exc e -> rest <> []) /\
    w_reg w' = w_reg w /\ w_closed w' = w_closed w /\ w_log w' = w_log w.
Proof.
  induction answers as [|a rest IH]; intros t w; cbn [send_loop];
    destruct (t <? List.length msg) eqn:Hlt.
  - exists [], (skipn t msg). simpl. rewrite app_nil_r.
    repeat split; intros; discriminate.
  - apply Nat.ltb_ge in Hlt. exists [], []. rewrite skipn_all2 by exact Hlt.
    simpl. rewrite app_nil_r. repeat split; congruence.
  - apply Nat.ltb_lt in Hlt.
    unfold bind at 1, try_catch. unfold bind at 1, sock_send.
    destruct (is_closed conn w) eqn:Ec.
    + exists [], (skipn t msg). simpl. rewrite app_nil_r.
      repeat split; [discriminate|]. intros e _. apply skipn_nonempty, Hlt.
    + destruct a as [n|e].
      * destruct n as [|n]; simpl.
        -- exists [], (skipn t msg). rewrite sent_to_set_wire. simpl.
           rewrite !app_nil_r. repeat split; [discriminate|].
           intros e _. apply skipn_nonempty, Hlt.
        -- specialize (IH (t + S n) (set_wire (w_wire w ++ [(conn, firstn (S n) (skipn t msg))]) w)).
           destruct (send_loop conn msg (t + S n) rest _) as [r w'].
           destruct IH as (sent & rest' & Hsk & Hsent & Hok & Hexc & Hreg & Hcl & Hlog).
           exists (firstn (S n) (skipn t msg) ++ sent), rest'.
           rewrite Hsent, sent_to_set_wire, <- !app_assoc.
           repeat split; auto.
           rewrite <- (firstn_skipn (S n) (skipn t msg)) at 1.
           rewrite skipn_skipn, Nat.add_comm, Hsk. reflexivity.
      * destruct e; simpl;
          try (exists [], (skipn t msg); rewrite !app_nil_r;
               repeat split; [discriminate|]; intros e' _; apply skipn_nonempty, Hlt).
        (* [BlockingIOError]: sleep and retry with the same [totalsent] *)
        exact (IH t w).
  - apply Nat.ltb_ge in Hlt. exists [], []. rewrite skipn_all2 by exact Hlt.
    simpl. rewrite app_nil_r. repeat split; congruence.
Qed.

Lemma sent_to_set_log conn l w : sent_to conn (set_log l w) = sent_to conn w.
Proof. reflexivity. Qed.

(** Accounting of [safe_send]: what went out, and what the caller sees. *)
Lemma safe_send_spec (conn : sock) (msg : list byte)
        (answers : list send_answer) (w : world) :
  let '(r, w') := safe_send conn msg answers w in
  (forall e, r <> Exc e) /\
  exists sent rest,
    msg = sent ++ rest /\
    sent_to conn w' = sent_to conn w ++ sent /\
    w_reg w' = w_reg w /\ w_closed w' = w_closed w /\
    (r = Ok tt ->
     rest = [] \/ (rest <> [] /\ exists e, In (LError "safe_send" e) (w_log w'))).
Proof.
  unfold safe_send. destruct msg as [|b msg'] eqn:Em.
  - simpl. split; [intros ? Habs; discriminate Habs|]. exists [], [].
    rewrite !app_nil_r. repeat split; auto.
  - rewrite <- Em. unfold bind, print, modify, try_catch.
    set (w1 := set_log (w_log w ++ [LNote "Sending"]) w).
    pose proof (send_loop_accounting conn msg answers 0 w1) as Hacc.
    destruct (send_loop conn msg 0 answers w1) as [[[]|e|] w2].
    + destruct Hacc as (sent & rest & Hsk & Hsent & Hok & _ & Hreg & Hcl & _).
      split; [intros ? Habs; discriminate Habs|]. exists sent, rest. simpl in Hsk.
      repeat split; auto.
    + destruct Hacc as (sent & rest & Hsk & Hsent & _ & Hexc & Hreg & Hcl & _).
      simpl. split; [intros ? Habs; discriminate Habs|]. exists sent, rest. simpl in Hsk.
      repeat split; auto. intros _. right. split; [exact (Hexc e eq_refl)|].
      exists e. apply in_or_app. right. left. reflexivity.
    + destruct Hacc as (sent & rest & Hsk & Hsent & _ & _ & Hreg & Hcl & _).
      split; [intros ? Habs; discriminate Habs|]. exists sent, rest. simpl in Hsk.
      repeat split; auto. discriminate.
Qed.

(** C3 (amended): [safe_send] never raises to its caller.  The socket
    accepts a prefix of the buffer; when the call returns, either the
    whole buffer went out, or bytes are left and the error (a socket
    error, or the [RuntimeError] raised for a send of 0 bytes) was only
    logged.  Registrations and closed sockets are untouched. *)
Theorem safe_send_never_raises (conn : sock) (msg : list byte)
        (answers : list send_answer) (w : world) :
  let '(r, w') := safe_send conn msg answers w in
  (forall e, r <> Exc e) /\
  exists sent rest,
    msg = sent ++ rest /\
    sent_to conn w' = sent_to conn w ++ sent /\
    w_reg w' = w_reg w /\ w_closed w' = w_closed w /\
    (r = Ok tt ->
     rest = [] \/ (rest <> [] /\ exists e, In (LError "safe_send" e) (w_log w'))).
Proof. apply safe_send_spec. Qed.

(** C3 counterexample: the socket takes 2 of 4 bytes, then a send makes
    no progress; [safe_send] returns normally with 2 bytes unsent. *)
Lemma safe_send_partial_returns_normally :
  let '(r, w') := safe_send 2 (encode_latin1 (lit "ABCD")) [Sent 2; Sent 0] pair_world in
  r = Ok tt /\ sent_to 2 w' = encode_latin1 (lit "AB") /\
  sent_to 2 w' <> encode_latin1 (lit "ABCD").
Proof. vm_compute. split; [reflexivity|split; [reflexivity|discriminate]]. Qed.

(* ------------------------------------------------------------------ *)
(** ** [close_connection] *)

Lemma existsb_filter_false {A} (f g : A -> bool) (l : list A) :
  existsb f l = false -> existsb f (filter g l) = false.
Proof.
  intros H. apply not_true_iff_false. intros Hf.
  apply existsb_exists in Hf as [x [Hx Hfx]]. apply filter_In in Hx as [Hx _].
  apply not_true_iff_false in H. apply H, existsb_exists. eauto.
Qed.

Lemma unregister_spec x w :
  is_registered x (snd (sel_unregister x w)) = false /\
  (forall y, is_registered y w = false -> is_registered y (snd (sel_unregister x w)) = false) /\
  w_closed (snd (sel_unregister x w)) = w_closed w.
Proof.
  unfold sel_unregister. destruct (is_registered x w) eqn:E; simpl; [|auto].
  unfold is_registered; simpl. repeat split.
  - apply not_true_iff_false. intros Hf.
    apply existsb_exists in Hf as [k [Hk Hxk]]. apply filter_In in Hk as [_ Hk].
    rewrite Hxk in Hk. discriminate.
  - intros y Hy. apply existsb_filter_false. exact Hy.
Qed.

Lemma try_pass_unregister x w :
  try_pass (sel_unregister x) w = (Ok tt, snd (sel_unregister x w)).
Proof. unfold try_pass, try_catch, sel_unregister. destruct (is_registered x w); reflexivity. Qed.

Lemma close_keeps_reg x w : w_reg (snd (sock_close x w)) = w_reg w.
Proof. unfold sock_close. destruct (is_closed x w); reflexivity. Qed.

Lemma wire_close x : keeps w_wire (sock_close x). Proof. unfold sock_close; prim. Qed.
Lemma wire_unregister x : keeps w_wire (sel_unregister x). Proof. unfold sel_unregister; prim. Qed.

(** Teardown returns normally from any state and leaves the pair torn
    down. *)
Lemma close_connection_spec c s w :
  exists w', close_connection c s w = (Ok tt, w') /\ torn_down c s w' /\
             w_wire w' = w_wire w /\
             (forall x, is_closed x w = true -> is_closed x w' = true).
Proof.
  unfold close_connection.
  rewrite (bind_ok _ _ _ _ _ (try_pass_unregister c w)).
  set (w1 := snd (sel_unregister c w)).
  rewrite (bind_ok _ _ _ _ _ (try_pass_unregister s w1)).
  set (w2 := snd (sel_unregister s w1)).
  rewrite (bind_ok _ _ _ _ _ (try_pass_close c w2)).
  set (w3 := snd (sock_close c w2)).
  rewrite try_pass_close. set (w4 := snd (sock_close s w3)).
  exists w4. split; [reflexivity|].
  destruct (unregister_spec c w) as (Hc1 & _ & Hcl1).
  destruct (unregister_spec s w1) as (Hs2 & Hkeep2 & Hcl2).
  destruct (is_closed_after_close c w2) as (Hc3 & Hm3).
  destruct (is_closed_after_close s w3) as (Hs4 & Hm4).
  assert (Hreg : forall x, is_registered x w4 = is_registered x w2).
  { intros x. unfold is_registered, w4, w3. rewrite !close_keeps_reg. reflexivity. }
  repeat split.
  - rewrite Hreg. apply Hkeep2, Hc1.
  - rewrite Hreg. exact Hs2.
  - apply Hm4, Hc3.
  - exact Hs4.
  - unfold w4, w3, w2, w1.
    rewrite (wire_close s), (wire_close c), (wire_unregister s), (wire_unregister c).
    reflexivity.
  - intros x Hx. apply Hm4, Hm3.
    unfold is_closed in *. fold w2. unfold w2. rewrite Hcl2. unfold w1. rewrite Hcl1. exact Hx.
Qed.

(** C8: teardown raises nothing, whatever the state of the two sockets,
    and a second teardown of the same pair raises nothing either. *)
Theorem close_connection_twice_no_error (client server : sock) (w : world) :
  let '(r1, w1) := close_connection client server w in
  let '(r2, w2) := close_connection client server w1 in
  r1 = Ok tt /\ r2 = Ok tt /\ torn_down client server w1 /\ torn_down client server w2.
Proof.
  destruct (close_connection_spec client server w) as (w1 & E1 & T1 & _).
  destruct (close_connection_spec client server w1) as (w2 & E2 & T2 & _).
  rewrite E1, E2. auto.
Qed.

(* ------------------------------------------------------------------ *)
(** ** The directional handlers *)

Lemma bind_exc {A B} (m : PyM A) (k : A -> PyM B) w e w' :
  m w = (Exc e, w') -> bind m k w = (Exc e, w').
Proof. intros E. unfold bind. rewrite E. reflexivity. Qed.

Lemma print_close l c s w :
  exists w', (print l ;; close_connection c s) w = (Ok tt, w') /\ torn_down c s w'.
Proof.
  assert (Ep : print l w = (Ok tt, set_log (w_log w ++ [l]) w)) by reflexivity.
  rewrite (bind_ok _ _ _ _ _ Ep).
  destruct (close_connection_spec c s (set_log (w_log w ++ [l]) w)) as (w' & E & T & _).
  eauto.
Qed.

(** Both [except] clauses of a handler tear the pair down and return;
    anything else the [try] block does passes through. *)
Lemma handler_excepts_spec side c s body w :
  match body w with
  | (Exc _, _) => exists w', handler_excepts side c s body w = (Ok tt, w') /\ torn_down c s w'
  | r => handler_excepts side c s body w = r
  end.
Proof.
  unfold handler_excepts, try_catch.
  destruct (body w) as [[a|e|] w1]; try reflexivity.
  destruct (is_reset_or_abort e).
  - destruct (print_close (LNote (side ++ " connection lost")%string) c s w1) as (w' & E & T).
    rewrite E. eauto.
  - cbv [any_exception]; cbv beta iota.
    destruct (print_close (LError ("reading from " ++ side)%string e) c s w1)
      as (w' & E & T). rewrite E. eauto.
Qed.

Lemma recv_world s ra w : snd (sock_recv s ra w) = w /\ fst (sock_recv s ra w) <> Stuck.
Proof.
  unfold sock_recv. destruct (is_closed s w), ra; split; (reflexivity || discriminate).
Qed.

(** C4 (amended): an error raised by the read, or an empty read, tears
    the pair down; after a non-empty read the pair stays registered and
    open whatever the sends answer, since [safe_send] catches and logs
    its own errors.  The handler raises nothing. *)
Theorem read_from_client_outcome (port : nat) (c s : sock) (ra : recv_answer)
        (sends : list send_answer) (w : world) :
  let '(r, w') := read_from_client port c s ra sends w in
  (forall e, r <> Exc e) /\
  match fst (sock_recv c ra w) with
  | Ok (_ :: _) => w_reg w' = w_reg w /\ w_closed w' = w_closed w
  | _ => torn_down c s w'
  end.
Proof.
  unfold read_from_client, client_relay_body. cbv zeta.
  match goal with
  | |- context [handler_excepts "client" c s ?b w] =>
      pose proof (handler_excepts_spec "client" c s b w) as H
  end.
  destruct (recv_world c ra w) as [Hw Hns].
  destruct (sock_recv c ra w) as [rr w0] eqn:Er. simpl in Hw, Hns |- *. subst w0.
  destruct rr as [data|e|]; [|rewrite (bind_exc _ _ _ _ _ Er) in H|contradiction].
  - rewrite (bind_ok _ _ _ _ _ Er) in H. destruct data as [|b bs].
    + destruct (print_close (LNote "Client closed connection") c s w) as (w' & E & T).
      rewrite E in H. rewrite H. split; [intros ? Habs; discriminate Habs|exact T].
    + assert (Ep : print (LNote "Client -> Server") w
                   = (Ok tt, set_log (w_log w ++ [LNote "Client -> Server"]) w)) by reflexivity.
      rewrite (bind_ok _ _ _ _ _ Ep) in H.
      pose proof (safe_send_spec s (rewrite_client_data port (b :: bs)) sends
                    (set_log (w_log w ++ [LNote "Client -> Server"]) w)) as Hs.
      destruct (safe_send s _ sends _) as [r2 w2].
      destruct Hs as (Hnr & sent & rest & _ & _ & Hreg & Hcl & _).
      destruct r2 as [u|e|]; [| exfalso; exact (Hnr e eq_refl) |];
        rewrite H; split; auto.
  - destruct H as (w' & E & T). rewrite E. split; [intros ? Habs; discriminate Habs|exact T].
Qed.

(** C4 counterexample: the upstream side breaks during the send; the
    pair stays registered and open. *)
Lemma send_error_keeps_pair :
  let '(r, w') := read_from_client 7245 1 2 (Received (encode_latin1 (lit "GET")))
                    [SendRaises BrokenPipeError] pair_world in
  r = Ok tt /\ is_registered 1 w' = true /\ is_registered 2 w' = true /\
  is_closed 1 w' = false /\ is_closed 2 w' = false /\
  In (LError "safe_send" BrokenPipeError) (w_log w').
Proof. vm_compute. repeat split; auto 10. Qed.

(** C6: what [read_from_server] hands to the client socket is the data
    read, unmodified: the client accepts a prefix of it, all of it unless
    a send error was logged. *)
Theorem read_from_server_forwards_unmodified (c s : sock) (ra : recv_answer)
        (sends : list send_answer) (w : world) (data : list byte) :
  fst (sock_recv s ra w) = Ok data -> data <> [] ->
  let '(r, w') := read_from_server c s ra sends w in
  exists sent rest,
    data = sent ++ rest /\
    sent_to c w' = sent_to c w ++ sent /\
    (r = Ok tt -> rest = [] \/ exists e, In (LError "safe_send" e) (w_log w')).
Proof.
  intros Hd Hne.
  unfold read_from_server, server_relay_body.
  match goal with
  | |- context [handler_excepts "server" c s ?b w] =>
      pose proof (handler_excepts_spec "server" c s b w) as H
  end.
  destruct (recv_world s ra w) as [Hw _].
  destruct (sock_recv s ra w) as [rr w0] eqn:Er. simpl in Hw, Hd. subst w0 rr.
  rewrite (bind_ok _ _ _ _ _ Er) in H.
  destruct data as [|b bs]; [congruence|].
  assert (Ep : print (LNote "Server -> Client") w
               = (Ok tt, set_log (w_log w ++ [LNote "Server -> Client"]) w)) by reflexivity.
  rewrite (bind_ok _ _ _ _ _ Ep) in H.
  pose proof (safe_send_spec c (b :: bs) sends
                (set_log (w_log w ++ [LNote "Server -> Client"]) w)) as Hs.
  destruct (safe_send c (b :: bs) sends _) as [r2 w2].
  destruct Hs as (Hnr & sent & rest & Hsplit & Hsent & _ & _ & Hlog).
  destruct r2 as [u|e|]; [| exfalso; exact (Hnr e eq_refl) |]; rewrite H;
    exists sent, rest; rewrite sent_to_set_log in Hsent; repeat split; auto;
    intros Hok; destruct (Hlog Hok) as [Hr|[_ He]]; auto.
Qed.

Lemma read_from_server_forwards_unmodified_witness :
  fst (sock_recv 2 (Received (http_get_host "[fe80::1]:7245")) pair_world)
    = Ok (http_get_host "[fe80::1]:7245") /\
  http_get_host "[fe80::1]:7245" <> [] /\
  let '(r, w') := read_from_server 1 2 (Received (http_get_host "[fe80::1]:7245"))
                    [Sent 4096] pair_world in
  exists sent rest,
    http_get_host "[fe80::1]:7245" = sent ++ rest /\
    sent_to 1 w' = sent_to 1 pair_world ++ sent /\
    (r = Ok tt -> rest = [] \/ exists e, In (LError "safe_send" e) (w_log w')).
Proof.
  assert (Hd : fst (sock_recv 2 (Received (http_get_host "[fe80::1]:7245")) pair_world)
               = Ok (http_get_host "[fe80::1]:7245")) by (vm_compute; reflexivity).
  assert (Hne : http_get_host "[fe80::1]:7245" <> []) by (vm_compute; discriminate).
  split; [exact Hd|split; [exact Hne|]].
  exact (read_from_server_forwards_unmodified 1 2 _ [Sent 4096] pair_world _ Hd Hne).
Defined.

(* ------------------------------------------------------------------ *)
(** ** [accept_connection] *)

Lemma try_any_exc {A} (m : PyM A) (h : exn -> PyM A) w e w' :
  m w = (Exc e, w') -> try_catch any_exception m h w = h e w'.
Proof. intros E. unfold try_catch. rewrite E. reflexivity. Qed.

Lemma listening_world_sel_ok : sel_ok listening_world.
Proof.
  intros x d H. simpl in H. destruct H as [H|[]]. inversion H; subst.
  split; [reflexivity | simpl; lia].
Qed.

Lemma release_local_effect s w :
  fst (release_local s w) = Ok tt /\
  w_reg (snd (release_local s w)) = w_reg w /\
  w_log (snd (release_local s w)) = w_log w /\
  w_next (snd (release_local s w)) = w_next w /\
  (forall x, is_closed x (snd (release_local s w)) =
             is_closed x w || ((x =? s) && negb (is_registered s w))).
Proof.
  unfold release_local. destruct (is_registered s w) eqn:R; simpl.
  - repeat split. intros x. rewrite andb_false_r, orb_false_r. reflexivity.
  - unfold sock_close. destruct (is_closed s w) eqn:C; simpl; repeat split; intros x;
      rewrite andb_true_r.
    + destruct (Nat.eqb_spec x s) as [->|_]; [rewrite C; reflexivity | symmetry; apply orb_false_r].
    + unfold is_closed; simpl. rewrite existsb_app. simpl. rewrite orb_false_r. reflexivity.
Qed.

Lemma release_locals_effect s k w :
  fst (release_locals s k w) = Ok tt /\
  w_reg (snd (release_locals s k w)) = w_reg w /\
  w_log (snd (release_locals s k w)) = w_log w /\
  w_next (snd (release_locals s k w)) = w_next w /\
  (forall x, is_closed x (snd (release_locals s k w)) =
             is_closed x w || ((s <=? x) && (x <? s + k) && negb (is_registered x w))).
Proof.
  revert s w; induction k as [|k IH]; intros s w.
  - simpl. repeat split. intros x.
    replace ((s <=? x) && (x <? s + 0)) with false
      by (destruct (Nat.leb_spec s x), (Nat.ltb_spec x (s + 0)); simpl; lia || reflexivity).
    rewrite orb_false_r. reflexivity.
  - destruct (release_local_effect s w) as (Er & Hr & Hl & Hn & Hc).
    change (release_locals s (S k) w) with (bind (release_local s) (fun _ => release_locals (S s) k) w).
    destruct (release_local s w) as [r1 w1] eqn:E1. simpl in Er, Hr, Hl, Hn, Hc. subst r1.
    rewrite (bind_ok _ _ _ _ _ E1).
    destruct (IH (S s) w1) as (Er2 & Hr2 & Hl2 & Hn2 & Hc2).
    repeat split; try congruence. intros x. rewrite Hc2, Hc.
    assert (Hreg : is_registered x w1 = is_registered x w) by (unfold is_registered; rewrite Hr; reflexivity).
    rewrite Hreg. destruct (Nat.eqb_spec x s) as [->|Hne].
    + rewrite Nat.leb_refl, (proj2 (Nat.ltb_lt s (s + S k)) ltac:(lia)).
      replace (S s <=? s) with false by (symmetry; apply Nat.leb_gt; lia).
      simpl. rewrite orb_false_r. reflexivity.
    + replace (s <=? x) with (S s <=? x)
        by (destruct (Nat.leb_spec (S s) x), (Nat.leb_spec s x); lia || reflexivity).
      replace (s + S k) with (S s + k) by lia. simpl (false && _). rewrite orb_false_r. reflexivity.
Qed.

(** C2: when the accept or the upstream connect fails, [accept_connection]
    logs the error and returns normally; it registers nothing, every
    socket it opened (the accepted client socket included) is closed
    once it returns, and no older socket changes state.  The socket
    numbers it hands out are fresh ([sel_ok]: every registered socket is
    older). *)
Theorem accept_failure_registers_nothing (listener : sock) (aa : accept_answer)
        (ca : connect_answer) (w : world) :
  sel_ok w ->
  (exists e, aa = AcceptRaises e) \/ is_closed listener w = true \/
  (exists e, ca = ConnectRaises e) ->
  let '(r, w') := accept_connection listener aa ca w in
  r = Ok tt /\ w_reg w' = w_reg w /\
  (forall x, w_next w <= x < w_next w' -> is_closed x w' = true) /\
  (forall x, x < w_next w -> is_closed x w' = is_closed x w) /\
  exists e, In (LError "accepting connection" e) (w_log w').
Proof.
  intros Hok Hfail. unfold accept_connection.
  rewrite (bind_ok _ _ _ _ _ (eq_refl : get_world w = (Ok w, w))). cbv beta.
  match goal with
  | |- context [try_catch any_exception ?b ?h] => set (body := b); set (hd := h)
  end.
  (* every failure ends in the logging handler *)
  assert (Hh : forall e w1, hd e w1 = (Ok tt, set_log (w_log w1 ++ [LError "accepting connection" e]) w1))
    by reflexivity.
  assert (Hlog : forall e w1, In (LError "accepting connection" e)
                               (w_log (set_log (w_log w1 ++ [LError "accepting connection" e]) w1)))
    by (intros; apply in_or_app; right; left; reflexivity).
  assert (Ht : exists wt, try_catch any_exception body hd w = (Ok tt, wt) /\
                 w_reg wt = w_reg w /\ w_next w <= w_next wt /\
                 (forall x, x < w_next w -> is_closed x wt = is_closed x w) /\
                 exists e, In (LError "accepting connection" e) (w_log wt)).
  { destruct (is_closed listener w) eqn:El.
    - assert (Eb : body w = (Exc OSError, w)).
      { unfold body. apply bind_exc. unfold sock_accept. rewrite El. reflexivity. }
      eexists. rewrite (try_any_exc _ _ _ _ _ Eb), Hh. repeat split; eauto.
    - destruct aa as [|e].
      2: { assert (Eb : body w = (Exc e, w)).
           { unfold body. apply bind_exc. unfold sock_accept. rewrite El. reflexivity. }
           eexists. rewrite (try_any_exc _ _ _ _ _ Eb), Hh. repeat split; eauto. }
      destruct Hfail as [[e He]|[Hc|[e ->]]]; [discriminate|congruence|].
      set (n := w_next w).
      set (w1 := set_next (S n) w).
      set (w2 := set_log (w_log w1 ++ [LNote "New connection"]) w1).
      assert (Ea : sock_accept listener AcceptOk w = (Ok n, w1))
        by (unfold sock_accept; rewrite El; reflexivity).
      assert (Ep : print (LNote "New connection") w1 = (Ok tt, w2)) by reflexivity.
      assert (Hc2 : forall x, is_closed x w2 = is_closed x w) by reflexivity.
      destruct (is_closed n w) eqn:Ecn.
      + assert (Eb : body w = (Exc OSError, w2)).
        { unfold body. rewrite (bind_ok _ _ _ _ _ Ea), (bind_ok _ _ _ _ _ Ep).
          apply bind_exc. unfold setblocking. rewrite Hc2, Ecn. reflexivity. }
        eexists. rewrite (try_any_exc _ _ _ _ _ Eb), Hh. repeat split; eauto. simpl. lia.
      + set (w3 := set_next (S (S n)) w2).
        set (w4 := snd (sock_close (S n) w3)).
        assert (Es : setblocking n w2 = (Ok tt, w2))
          by (unfold setblocking; rewrite Hc2, Ecn; reflexivity).
        assert (Ec : create_connection (ConnectRaises e) w2 = (Exc e, w4)).
        { unfold create_connection.
          assert (En : new_socket w2 = (Ok (S n), w3)) by reflexivity.
          rewrite (bind_ok _ _ _ _ _ En). cbv beta iota.
          assert (Ecl : sock_close (S n) w3 = (Ok tt, w4))
            by (unfold w4, sock_close; destruct (is_closed (S n) w3); reflexivity).
          rewrite (bind_ok _ _ _ _ _ Ecl). reflexivity. }
        assert (Eb : body w = (Exc e, w4)).
        { unfold body. rewrite (bind_ok _ _ _ _ _ Ea), (bind_ok _ _ _ _ _ Ep),
            (bind_ok _ _ _ _ _ Es). apply bind_exc. exact Ec. }
        eexists. rewrite (try_any_exc _ _ _ _ _ Eb), Hh.
        assert (Hreg : w_reg w4 = w_reg w) by (unfold w4; rewrite close_keeps_reg; reflexivity).
        assert (Hn4 : w_next w4 = S (S n))
          by (unfold w4, sock_close; destruct (is_closed (S n) w3); reflexivity).
        assert (Hcl : forall x, x < n -> is_closed x w4 = is_closed x w).
        { intros x Hx. unfold w4, sock_close. destruct (is_closed (S n) w3); [reflexivity|].
          unfold is_closed; simpl. rewrite existsb_app. simpl.
          replace (x =? S n) with false by (symmetry; apply Nat.eqb_neq; lia).
          rewrite !orb_false_r. reflexivity. }
        repeat split; eauto. simpl. rewrite Hn4. unfold n. lia. }
  destruct Ht as (wt & Et & Hr & Hn & Hc & Hl).
  rewrite (bind_ok _ _ _ _ _ Et), (bind_ok _ _ _ _ _ (eq_refl : get_world wt = (Ok wt, wt))).
  destruct (release_locals_effect (w_next w) (w_next wt - w_next w) wt)
    as (Er & Hr2 & Hl2 & Hn2 & Hc2).
  destruct (release_locals (w_next w) (w_next wt - w_next w) wt) as [r w'].
  simpl in Er, Hr2, Hl2, Hn2, Hc2. subst r.
  repeat split.
  - congruence.
  - intros x Hx. rewrite Hc2.
    assert (Hx' : is_registered x wt = false).
    { unfold is_registered. rewrite Hr. apply not_true_iff_false. intros H.
      apply existsb_exists in H as [[y d] [Hin Hy]]. apply Nat.eqb_eq in Hy. simpl in Hy. subst y.
      apply Hok in Hin as [_ Hin]. lia. }
    rewrite Hx', (proj2 (Nat.leb_le _ _) (proj1 Hx)),
      (proj2 (Nat.ltb_lt x (w_next w + (w_next wt - w_next w))) ltac:(lia)).
    apply orb_true_r.
  - intros x Hx. rewrite Hc2, (Hc x Hx), (proj2 (Nat.leb_gt (w_next w) x) Hx).
    apply orb_false_r.
  - destruct Hl as [e He]. exists e. rewrite Hl2. exact He.
Qed.

Lemma accept_failure_registers_nothing_witness :
  (sel_ok listening_world /\
   ((exists e, AcceptOk = AcceptRaises e) \/ is_closed 0 listening_world = true \/
    (exists e, ConnectRaises ConnectionRefusedError = ConnectRaises e))) /\
  let '(r, w') := accept_connection 0 AcceptOk (ConnectRaises ConnectionRefusedError)
                    listening_world in
  r = Ok tt /\ w_reg w' = w_reg listening_world /\
  (forall x, w_next listening_world <= x < w_next w' -> is_closed x w' = true) /\
  (forall x, x < w_next listening_world -> is_closed x w' = is_closed x listening_world) /\
  exists e, In (LError "accepting connection" e) (w_log w').
Proof.
  assert (Hf : (exists e, AcceptOk = AcceptRaises e) \/ is_closed 0 listening_world = true \/
               (exists e, ConnectRaises ConnectionRefusedError = ConnectRaises e))
    by (right; right; eexists; reflexivity).
  split; [split; [exact listening_world_sel_ok | exact Hf]|].
  exact (accept_failure_registers_nothing 0 AcceptOk _ listening_world listening_world_sel_ok Hf).
Defined.

(* ------------------------------------------------------------------ *)
(** ** More of [safe_send] *)

Lemma closed_send c m a : keeps w_closed (sock_send c m a). Proof. unfold sock_send; prim. Qed.

#[local] Hint Resolve closed_send : frame.

(** One turn of the [while] of [safe_send]. *)
Definition send_step (conn : sock) (msg : list byte) (totalsent : nat) (a : send_answer)
  : PyM (option nat) :=
  try_catch is_blocking
    (sent <- sock_send conn (skipn totalsent msg) a ;;
     if Nat.eqb sent 0 then raise RuntimeError
     else ret (Some (totalsent + sent)))
    (fun _ => ret None).

Lemma send_loop_cons conn msg t a rest :
  t < List.length msg ->
  send_loop conn msg t (a :: rest) =
  (next <- send_step conn msg t a ;;
   match next with
   | Some t' => send_loop conn msg t' rest
   | None => send_loop conn msg t rest
   end).
Proof. intros H. cbn [send_loop]. apply Nat.ltb_lt in H. rewrite H. reflexivity. Qed.

Lemma send_loop_done conn msg t answers :
  List.length msg <= t -> send_loop conn msg t answers = ret tt.
Proof.
  intros H. apply Nat.ltb_ge in H. destruct answers; cbn [send_loop]; rewrite H; reflexivity.
Qed.

Lemma send_step_closed conn msg t a : keeps w_closed (send_step conn msg t a).
Proof. unfold send_step. frame. Qed.

Lemma send_step_blocking conn msg t w :
  is_closed conn w = false ->
  send_step conn msg t (SendRaises BlockingIOError) w = (Ok None, w).
Proof. intros H. unfold send_step, try_catch, bind, sock_send. rewrite H. reflexivity. Qed.

Lemma send_step_fatal conn msg t a w :
  fatal_answer a = true -> exists e w', send_step conn msg t a w = (Exc e, w').
Proof.
  intros Hf. unfold send_step, try_catch, bind, sock_send.
  destruct (is_closed conn w); [cbn; eauto|].
  destruct a as [[|n]|e0]; simpl in Hf; try discriminate.
  - cbn; eauto.
  - destruct e0; simpl in Hf; try discriminate; cbn; eauto.
Qed.

Lemma send_step_progress conn msg t n w :
  is_closed conn w = false ->
  send_step conn msg t (Sent (S n)) w =
  (Ok (Some (t + S n)), set_wire (w_wire w ++ [(conn, firstn (S n) (skipn t msg))]) w).
Proof. intros H. unfold send_step, try_catch, bind, sock_send. rewrite H. reflexivity. Qed.

Lemma send_loop_blocking_skip conn msg pre post :
  forall t w, is_closed conn w = false ->
  send_loop conn msg t (pre ++ SendRaises BlockingIOError :: post) w =
  send_loop conn msg t (pre ++ post) w.
Proof.
  induction pre as [|a pre IH]; intros t w Hc; simpl app.
  - destruct (Nat.lt_ge_cases t (List.length msg)) as [Hlt|Hge].
    + rewrite send_loop_cons by exact Hlt.
      rewrite (bind_ok _ _ _ _ _ (send_step_blocking conn msg t w Hc)). reflexivity.
    + rewrite !send_loop_done by exact Hge. reflexivity.
  - destruct (Nat.lt_ge_cases t (List.length msg)) as [Hlt|Hge].
    + rewrite !send_loop_cons by exact Hlt. unfold bind.
      pose proof (send_step_closed conn msg t a w) as Hk.
      destruct (send_step conn msg t a w) as [[[t'|]|e|] w'] eqn:E; try reflexivity;
        apply IH; unfold is_closed in *; simpl in Hk; rewrite Hk; exact Hc.
    + rewrite !send_loop_done by exact Hge. reflexivity.
Qed.

Lemma send_loop_fatal_cut conn msg a pre post :
  fatal_answer a = true ->
  forall t w,
  send_loop conn msg t (pre ++ a :: post) w = send_loop conn msg t (pre ++ [a]) w.
Proof.
  intros Hf. induction pre as [|b pre IH]; intros t w; simpl app.
  - destruct (Nat.lt_ge_cases t (List.length msg)) as [Hlt|Hge].
    + rewrite !send_loop_cons by exact Hlt.
      destruct (send_step_fatal conn msg t a w Hf) as (e & w' & E).
      rewrite (bind_exc _ _ _ _ _ E), (bind_exc _ _ _ _ _ E). reflexivity.
    + rewrite !send_loop_done by exact Hge. reflexivity.
  - destruct (Nat.lt_ge_cases t (List.length msg)) as [Hlt|Hge].
    + rewrite !send_loop_cons by exact Hlt. unfold bind.
      destruct (send_step conn msg t b w) as [[[t'|]|e|] w'] eqn:E; try reflexivity; apply IH.
    + rewrite !send_loop_done by exact Hge. reflexivity.
Qed.

Lemma send_loop_delivers conn msg answers :
  Forall makes_progress answers ->
  forall t w, is_closed conn w = false ->
  List.length msg - t <= List.length answers ->
  exists w', send_loop conn msg t answers w = (Ok tt, w') /\
    sent_to conn w' = sent_to conn w ++ skipn t msg /\
    w_log w' = w_log w /\ w_reg w' = w_reg w /\ w_closed w' = w_closed w.
Proof.
  induction 1 as [|a rest Ha Hrest IH]; intros t w Hc Hlen.
  - rewrite send_loop_done by (simpl in Hlen; lia). exists w.
    rewrite skipn_all2 by (simpl in Hlen; lia). rewrite app_nil_r. auto.
  - destruct (Nat.lt_ge_cases t (List.length msg)) as [Hlt|Hge].
    + destruct Ha as [n ->]. rewrite send_loop_cons by exact Hlt.
      rewrite (bind_ok _ _ _ _ _ (send_step_progress conn msg t n w Hc)).
      set (w1 := set_wire _ w).
      destruct (IH (t + S n) w1) as (w' & E & Hsent & Hlog & Hreg & Hcl);
        [exact Hc | simpl in Hlen; lia |].
      exists w'. rewrite E. split; [reflexivity|].
      rewrite Hsent. unfold w1. rewrite sent_to_set_wire, <- app_assoc.
      rewrite Nat.add_comm, <- skipn_skipn, firstn_skipn. auto.
    + rewrite send_loop_done by exact Hge. exists w.
      rewrite skipn_all2 by exact Hge. rewrite app_nil_r. auto.
Qed.

Lemma try_catch_ok {A} p (m : PyM A) h w a w' :
  m w = (Ok a, w') -> try_catch p m h w = (Ok a, w').
Proof. intros E. unfold try_catch. rewrite E. reflexivity. Qed.

(** Every send accepting at least one byte, with as many sends as bytes,
    gets the whole buffer out; nothing but the ["Sending"] note is
    logged. *)
Theorem safe_send_delivers_all (conn : sock) (msg : list byte)
        (answers : list send_answer) (w : world) :
  is_closed conn w = false -> Forall makes_progress answers ->
  List.length msg <= List.length answers ->
  exists w', safe_send conn msg answers w = (Ok tt, w') /\
    sent_to conn w' = sent_to conn w ++ msg /\
    w_log w' = w_log w ++ (match msg with [] => [] | _ => [LNote "Sending"] end) /\
    w_reg w' = w_reg w /\ w_closed w' = w_closed w.
Proof.
  intros Hc Hp Hlen. destruct msg as [|b msg'].
  - exists w. rewrite !app_nil_r. auto.
  - unfold safe_send.
    set (w1 := set_log (w_log w ++ [LNote "Sending"]) w).
    assert (Ep : print (LNote "Sending") w = (Ok tt, w1)) by reflexivity.
    rewrite (bind_ok _ _ _ _ _ Ep).
    destruct (send_loop_delivers conn (b :: msg') answers Hp 0 w1) as (w' & E & Hs & Hl & Hr & Hcl);
      [exact Hc | lia |].
    exists w'. rewrite (try_catch_ok _ _ _ _ _ _ E). split; [reflexivity|].
    rewrite Hs, Hl, Hr, Hcl. auto.
Qed.

Lemma safe_send_delivers_all_witness :
  (is_closed 2 pair_world = false /\ Forall makes_progress [Sent 2; Sent 1; Sent 1] /\
   List.length [Byte.x41; Byte.x42; Byte.x43] <= List.length [Sent 2; Sent 1; Sent 1]) /\
  exists w', safe_send 2 [Byte.x41; Byte.x42; Byte.x43] [Sent 2; Sent 1; Sent 1] pair_world = (Ok tt, w') /\
    sent_to 2 w' = sent_to 2 pair_world ++ [Byte.x41; Byte.x42; Byte.x43] /\
    w_log w' = w_log pair_world ++ [LNote "Sending"] /\
    w_reg w' = w_reg pair_world /\ w_closed w' = w_closed pair_world.
Proof.
  assert (Hp : Forall makes_progress [Sent 2; Sent 1; Sent 1])
    by (repeat constructor; eexists; reflexivity).
  split; [split; [reflexivity | split; [exact Hp | simpl; lia]]|].
  apply (safe_send_delivers_all 2 [Byte.x41; Byte.x42; Byte.x43] [Sent 2; Sent 1; Sent 1] pair_world);
    [reflexivity | exact Hp | simpl; lia].
Defined.

(** A [BlockingIOError] from [send] is retried at the same offset: on an
    open socket, removing it from the answers changes nothing. *)
Theorem safe_send_blocking_retry_transparent (conn : sock) (msg : list byte)
        (pre post : list send_answer) (w : world) :
  is_closed conn w = false ->
  safe_send conn msg (pre ++ SendRaises BlockingIOError :: post) w =
  safe_send conn msg (pre ++ post) w.
Proof.
  intros Hc. unfold safe_send. destruct msg as [|b msg']; [reflexivity|].
  unfold bind, print, modify, try_catch.
  rewrite send_loop_blocking_skip by exact Hc. reflexivity.
Qed.

Lemma safe_send_blocking_retry_transparent_witness :
  is_closed 2 pair_world = false /\
  safe_send 2 [Byte.x41; Byte.x42] ([Sent 1] ++ SendRaises BlockingIOError :: [Sent 1]) pair_world =
  safe_send 2 [Byte.x41; Byte.x42] ([Sent 1] ++ [Sent 1]) pair_world.
Proof.
  split; [reflexivity|].
  apply (safe_send_blocking_retry_transparent 2 [Byte.x41; Byte.x42] [Sent 1] [Sent 1] pair_world).
  reflexivity.
Defined.

(** A send of 0 bytes or a non-blocking error ends [safe_send]: no later
    [send] is attempted, the rest of the buffer is dropped. *)
Theorem safe_send_gives_up_after_fatal (conn : sock) (msg : list byte)
        (pre : list send_answer) (a : send_answer) (post : list send_answer) (w : world) :
  fatal_answer a = true ->
  safe_send conn msg (pre ++ a :: post) w = safe_send conn msg (pre ++ [a]) w.
Proof.
  intros Hf. unfold safe_send. destruct msg as [|b msg']; [reflexivity|].
  unfold bind, print, modify, try_catch.
  rewrite (send_loop_fatal_cut conn (b :: msg') a pre post Hf). reflexivity.
Qed.

Lemma safe_send_gives_up_after_fatal_witness :
  fatal_answer (SendRaises BrokenPipeError) = true /\
  safe_send 2 [Byte.x41; Byte.x42] ([Sent 1] ++ SendRaises BrokenPipeError :: [Sent 1]) pair_world =
  safe_send 2 [Byte.x41; Byte.x42] ([Sent 1] ++ [SendRaises BrokenPipeError]) pair_world.
Proof.
  split; [reflexivity|].
  apply (safe_send_gives_up_after_fatal 2 [Byte.x41; Byte.x42] [Sent 1]
           (SendRaises BrokenPipeError) [Sent 1] pair_world).
  reflexivity.
Defined.

(* ------------------------------------------------------------------ *)
(** ** What teardown touches *)

Lemma set_reg_same w : set_reg (w_reg w) w = w.
Proof. destruct w; reflexivity. Qed.

Lemma filter_none_removed {A} (f : A -> bool) (l : list A) :
  existsb f l = false -> filter (fun k => negb (f k)) l = l.
Proof.
  induction l as [|a l IH]; simpl; [reflexivity|].
  intros H. apply orb_false_iff in H as [H1 H2]. rewrite H1. simpl. f_equal. auto.
Qed.

Lemma filter_twice {A} (f g : A -> bool) (l : list A) :
  filter g (filter f l) = filter (fun k => f k && g k) l.
Proof.
  induction l as [|a l IH]; simpl; [reflexivity|].
  destruct (f a); simpl; [destruct (g a)|]; rewrite ?IH; reflexivity.
Qed.

Lemma try_pass_unregister_eq x w :
  try_pass (sel_unregister x) w =
  (Ok tt, set_reg (filter (fun k => negb (Nat.eqb x (fst k))) (w_reg w)) w).
Proof.
  rewrite try_pass_unregister. unfold sel_unregister.
  destruct (is_registered x w) eqn:E; [reflexivity|]. simpl.
  rewrite (filter_none_removed (fun k => Nat.eqb x (fst k))) by exact E.
  rewrite set_reg_same. reflexivity.
Qed.

Lemma sock_close_fields x w :
  let w' := snd (sock_close x w) in
  w_reg w' = w_reg w /\ w_next w' = w_next w /\ w_wire w' = w_wire w /\
  w_log w' = w_log w /\ w_running w' = w_running w /\ w_polls w' = w_polls w /\
  w_sel_closed w' = w_sel_closed w /\
  (forall y, is_closed y w' = is_closed y w || Nat.eqb y x).
Proof.
  unfold sock_close. destruct (is_closed x w) eqn:E; simpl; repeat split.
  - intros y. destruct (Nat.eqb_spec y x) as [->|_]; [rewrite E|]; auto using orb_false_r.
  - intros y. unfold is_closed; simpl. rewrite existsb_app. simpl. rewrite orb_false_r. reflexivity.
Qed.

(** The exact effect of [close_connection]. *)
Lemma close_connection_effect c s w :
  let '(r, w') := close_connection c s w in
  r = Ok tt /\ w_reg w' = drop_pair c s (w_reg w) /\
  (forall x, is_closed x w' = is_closed x w || Nat.eqb x c || Nat.eqb x s) /\
  w_next w' = w_next w /\ w_wire w' = w_wire w /\ w_log w' = w_log w /\
  w_running w' = w_running w /\ w_polls w' = w_polls w /\ w_sel_closed w' = w_sel_closed w.
Proof.
  unfold close_connection.
  rewrite (bind_ok _ _ _ _ _ (try_pass_unregister_eq c w)).
  set (w1 := set_reg _ w).
  rewrite (bind_ok _ _ _ _ _ (try_pass_unregister_eq s w1)).
  set (w2 := set_reg _ w1).
  rewrite (bind_ok _ _ _ _ _ (try_pass_close c w2)).
  rewrite try_pass_close.
  destruct (sock_close_fields c w2) as (R3 & N3 & W3 & L3 & Ru3 & P3 & S3 & C3).
  set (w3 := snd (sock_close c w2)) in *.
  destruct (sock_close_fields s w3) as (R4 & N4 & W4 & L4 & Ru4 & P4 & S4 & C4).
  set (w4 := snd (sock_close s w3)) in *.
  split; [reflexivity|].
  rewrite R4, N4, W4, L4, Ru4, P4, S4, R3, N3, W3, L3, Ru3, P3, S3. simpl.
  split; [unfold drop_pair; apply filter_twice|].
  split; [|repeat split]. intros x. rewrite C4, C3. reflexivity.
Qed.

(** Teardown of one pair leaves every other connection alone: the other
    keys of the selector map keep their data and their order, and no
    other socket is closed. *)
Theorem close_connection_spares_others (client server : sock) (w : world) :
  let '(r, w') := close_connection client server w in
  r = Ok tt /\
  w_reg w' = filter (fun k => negb (Nat.eqb client (fst k)) && negb (Nat.eqb server (fst k)))
                    (w_reg w) /\
  (forall x, x <> client -> x <> server -> is_closed x w' = is_closed x w) /\
  w_wire w' = w_wire w.
Proof.
  pose proof (close_connection_effect client server w) as H.
  destruct (close_connection client server w) as [r w'].
  destruct H as (Hr & Hreg & Hcl & _ & Hw & _). repeat split; auto.
  intros x Hc Hs. rewrite Hcl.
  apply Nat.eqb_neq in Hc, Hs. rewrite Hc, Hs, !orb_false_r. reflexivity.
Qed.

(* ------------------------------------------------------------------ *)
(** ** Handlers run for a pair already torn down *)

Lemma close_connection_torn_down c s w :
  torn_down c s w -> close_connection c s w = (Ok tt, w).
Proof.
  intros (Rc & Rs & Cc & Cs). unfold close_connection.
  rewrite (bind_ok _ _ _ _ _ (try_pass_unregister_eq c w)).
  rewrite (filter_none_removed (fun k => Nat.eqb c (fst k))) by exact Rc. rewrite set_reg_same.
  rewrite (bind_ok _ _ _ _ _ (try_pass_unregister_eq s w)).
  rewrite (filter_none_removed (fun k => Nat.eqb s (fst k))) by exact Rs. rewrite set_reg_same.
  unfold try_pass, try_catch, bind, sock_close. rewrite Cc, Cs. reflexivity.
Qed.

(** When both sockets of a pair are already unregistered and closed (the
    other handler of the same [select] batch tore it down), either
    handler only logs the [OSError] of its [recv] on a closed socket:
    nothing else of the world changes and nothing is raised. *)
Theorem stale_handlers_only_log (port : nat) (client server : sock) (ra : recv_answer)
        (sends : list send_answer) (w : world) :
  torn_down client server w ->
  read_from_client port client server ra sends w =
    (Ok tt, set_log (w_log w ++ [LError "reading from client" OSError]) w) /\
  read_from_server client server ra sends w =
    (Ok tt, set_log (w_log w ++ [LError "reading from server" OSError]) w).
Proof.
  intros T. assert (T' := T). destruct T' as (Rc & Rs & Cc & Cs).
  assert (Hl : forall l, torn_down client server (set_log l w)) by (intros; exact T).
  split.
  - unfold read_from_client, handler_excepts, client_relay_body.
    unfold try_catch at 1. unfold try_catch at 1.
    unfold bind at 1. unfold sock_recv. rewrite Cc. simpl.
    rewrite (bind_ok _ _ _ _ _ (eq_refl : print (LError "reading from client" OSError) w =
                                  (Ok tt, set_log (w_log w ++ [LError "reading from client" OSError]) w))).
    apply close_connection_torn_down, Hl.
  - unfold read_from_server, handler_excepts, server_relay_body.
    unfold try_catch at 1. unfold try_catch at 1.
    unfold bind at 1. unfold sock_recv. rewrite Cs. simpl.
    rewrite (bind_ok _ _ _ _ _ (eq_refl : print (LError "reading from server" OSError) w =
                                  (Ok tt, set_log (w_log w ++ [LError "reading from server" OSError]) w))).
    apply close_connection_torn_down, Hl.
Qed.

Lemma stale_handlers_only_log_witness :
  torn_down 1 2 after_teardown_world /\
  read_from_client 7245 1 2 (Received [Byte.x41]) [Sent 1] after_teardown_world =
    (Ok tt, set_log (w_log after_teardown_world ++ [LError "reading from client" OSError])
                    after_teardown_world) /\
  read_from_server 1 2 (Received [Byte.x41]) [Sent 1] after_teardown_world =
    (Ok tt, set_log (w_log after_teardown_world ++ [LError "reading from server" OSError])
                    after_teardown_world).
Proof.
  assert (T : torn_down 1 2 after_teardown_world) by (repeat split).
  split; [exact T|].
  apply (stale_handlers_only_log 7245 1 2 (Received [Byte.x41]) [Sent 1] after_teardown_world T).
Defined.

(* ------------------------------------------------------------------ *)
(** ** A successful accept *)

(** With the listener open, a successful [accept()] and [connect()], and
    fresh socket numbers (every registered or closed socket older than
    [w_next]), [accept_connection] appends the client with
    [read_from_client] and then the upstream socket with
    [read_from_server] to the selector map, closes nothing and creates
    exactly two sockets. *)
Theorem accept_connection_registers_pair (listener : sock) (w : world) :
  is_closed listener w = false -> sel_ok w ->
  (forall x, is_closed x w = true -> x < w_next w) ->
  accept_connection listener AcceptOk ConnectOk w =
  (Ok tt, mkWorld (w_reg w ++ [(w_next w, RClient (w_next w) (S (w_next w)));
                               (S (w_next w), RServer (w_next w) (S (w_next w)))])
                  (w_closed w) (w_sel_closed w) (w_running w) (S (S (w_next w)))
                  (w_polls w) (w_wire w) (w_log w ++ [LNote "New connection"])).
Proof.
  intros Hl Hok Hfresh.
  assert (Hc : forall x, w_next w <= x -> existsb (Nat.eqb x) (w_closed w) = false).
  { intros x Hx. apply not_true_iff_false. intros H. apply Hfresh in H. lia. }
  assert (Hr : forall x, w_next w <= x -> existsb (fun k => Nat.eqb x (fst k)) (w_reg w) = false).
  { intros x Hx. apply not_true_iff_false. intros H.
    apply existsb_exists in H as [[y d] [Hin Hy]]. apply Nat.eqb_eq in Hy. simpl in Hy. subst y.
    apply Hok in Hin as [_ Hin]. lia. }
  set (n := w_next w).
  set (w1 := set_next (S n) w).
  set (w2 := set_log (w_log w1 ++ [LNote "New connection"]) w1).
  set (w3 := set_next (S (S n)) w2).
  set (w4 := set_reg (w_reg w3 ++ [(n, RClient n (S n))]) w3).
  set (w5 := set_reg (w_reg w4 ++ [(S n, RServer n (S n))]) w4).
  assert (Ea : sock_accept listener AcceptOk w = (Ok n, w1))
    by (unfold sock_accept; rewrite Hl; reflexivity).
  assert (Ep : print (LNote "New connection") w1 = (Ok tt, w2)) by reflexivity.
  assert (Es1 : setblocking n w2 = (Ok tt, w2)).
  { unfold setblocking. change (is_closed n w2) with (existsb (Nat.eqb n) (w_closed w)).
    rewrite Hc by lia. reflexivity. }
  assert (Ecc : create_connection ConnectOk w2 = (Ok (S n), w3)) by reflexivity.
  assert (Es2 : setblocking (S n) w3 = (Ok tt, w3)).
  { unfold setblocking. change (is_closed (S n) w3) with (existsb (Nat.eqb (S n)) (w_closed w)).
    rewrite Hc by lia. reflexivity. }
  assert (Er1 : sel_register n (RClient n (S n)) w3 = (Ok tt, w4)).
  { unfold sel_register. change (is_closed n w3) with (existsb (Nat.eqb n) (w_closed w)).
    change (is_registered n w3) with (existsb (fun k => Nat.eqb n (fst k)) (w_reg w)).
    rewrite Hc, Hr by lia. reflexivity. }
  assert (Er2 : sel_register (S n) (RServer n (S n)) w4 = (Ok tt, w5)).
  { unfold sel_register. change (is_closed (S n) w4) with (existsb (Nat.eqb (S n)) (w_closed w)).
    change (is_registered (S n) w4)
      with (existsb (fun k => Nat.eqb (S n) (fst k)) (w_reg w ++ [(n, RClient n (S n))])).
    assert (E : (S n =? n) = false) by (apply Nat.eqb_neq; lia).
    rewrite Hc by lia. rewrite existsb_app, Hr by lia. cbn [existsb fst]. rewrite E. reflexivity. }
  assert (Hin : forall x d, In (x, d) [(n, RClient n (S n)); (S n, RServer n (S n))] ->
                  release_local x w5 = (Ok tt, w5)).
  { intros x d Hx. unfold release_local.
    replace (is_registered x w5) with true; [reflexivity|]. symmetry.
    apply existsb_exists. exists (x, d). split; [|apply Nat.eqb_refl].
    change (w_reg w5) with ((w_reg w ++ [(n, RClient n (S n))]) ++ [(S n, RServer n (S n))]).
    rewrite <- app_assoc. apply in_or_app. right. exact Hx. }
  unfold accept_connection.
  rewrite (bind_ok _ _ _ _ _ (eq_refl : get_world w = (Ok w, w))). cbv beta.
  erewrite bind_ok.
  2: { erewrite try_catch_ok; [reflexivity|].
       rewrite (bind_ok _ _ _ _ _ Ea), (bind_ok _ _ _ _ _ Ep), (bind_ok _ _ _ _ _ Es1),
         (bind_ok _ _ _ _ _ Ecc), (bind_ok _ _ _ _ _ Es2), (bind_ok _ _ _ _ _ Er1), Er2.
       reflexivity. }
  rewrite (bind_ok _ _ _ _ _ (eq_refl : get_world w5 = (Ok w5, w5))).
  change (w_next w5) with (S (S n)). change (w_next w) with n. replace (S (S n) - n) with 2 by lia.
  change (release_locals n 2 w5) with
    (bind (release_local n) (fun _ => bind (release_local (S n)) (fun _ => ret tt)) w5).
  rewrite (bind_ok _ _ _ _ _ (Hin n _ (or_introl eq_refl))),
    (bind_ok _ _ _ _ _ (Hin (S n) _ (or_intror (or_introl eq_refl)))).
  unfold ret, w5, w4, w3, w2, w1. simpl. rewrite <- app_assoc. reflexivity.
Qed.

Lemma accept_connection_registers_pair_witness :
  (is_closed 0 listening_world = false /\ sel_ok listening_world /\
   (forall x, is_closed x listening_world = true -> x < w_next listening_world)) /\
  accept_connection 0 AcceptOk ConnectOk listening_world =
  (Ok tt, mkWorld [(0, RAccept); (1, RClient 1 2); (2, RServer 1 2)] [] false true 3 0 [] [LNote "New connection"]).
Proof.
  assert (Hf : forall x, is_closed x listening_world = true -> x < w_next listening_world)
    by (intros x H; discriminate H).
  split; [split; [reflexivity | split; [exact listening_world_sel_ok | exact Hf]]|].
  exact (accept_connection_registers_pair 0 listening_world eq_refl listening_world_sel_ok Hf).
Defined.

(* ------------------------------------------------------------------ *)
(** ** The selector map holds only open sockets *)

Section Triples.
Context {A B : Type}.

Lemma triple_ret (Q : A -> world -> Prop) E a : triple (Q a) (ret a) Q E.
Proof. intros w H. exact H. Qed.

Lemma triple_raise (Q : A -> world -> Prop) E e : triple E (raise e) Q E.
Proof. intros w H. exact H. Qed.

Lemma triple_stuck (Q : A -> world -> Prop) E : triple E stuck Q E.
Proof. intros w H. exact H. Qed.

Lemma triple_bind P (m : PyM A) Q (k : A -> PyM B) R E :
  triple P m Q E -> (forall a, triple (Q a) (k a) R E) -> triple P (bind m k) R E.
Proof.
  intros Hm Hk w HP. specialize (Hm w HP). unfold bind.
  destruct (m w) as [[a|e|] w']; [apply Hk|..]; exact Hm.
Qed.

Lemma triple_try P (m : PyM A) Q E p h :
  triple P m Q E -> (forall e, triple E (h e) Q E) -> triple P (try_catch p m h) Q E.
Proof.
  intros Hm Hh w HP. specialize (Hm w HP). unfold try_catch.
  destruct (m w) as [[a|e|] w']; try exact Hm.
  destruct (p e); [apply Hh, Hm|exact Hm].
Qed.

Lemma triple_conseq P P' (m : PyM A) (Q Q' : A -> world -> Prop) E :
  (forall w, P' w -> P w) -> (forall a w, Q a w -> Q' a w) ->
  triple P m Q E -> triple P' m Q' E.
Proof.
  intros HP HQ Hm w H. specialize (Hm w (HP w H)).
  destruct (m w) as [[a|e|] w']; auto.
Qed.

(** A step that leaves the selector map, the closed sockets and the
    socket counter alone keeps any property of those three. *)
Lemma triple_keep (P : world -> Prop) (m : PyM A) :
  (forall w w', w_reg w' = w_reg w -> w_closed w' = w_closed w -> w_next w' = w_next w ->
                P w -> P w') ->
  keeps w_reg m -> keeps w_closed m -> keeps w_next m ->
  (forall w, P w -> sel_ok w) ->
  triple P m (fun _ => P) sel_ok.
Proof.
  intros Hst Hr Hc Hn Hok w HP.
  pose proof (Hst w (snd (m w)) (Hr w) (Hc w) (Hn w) HP) as H'.
  destruct (m w) as [[a|e|] w']; simpl in H'; auto.
Qed.

End Triples.

Lemma sel_ok_stable w w' :
  w_reg w' = w_reg w -> w_closed w' = w_closed w -> w_next w' = w_next w -> sel_ok w -> sel_ok w'.
Proof.
  intros Hr Hc Hn H x d Hx. unfold is_closed. rewrite Hc, Hn.
  apply (H x d). rewrite <- Hr. exact Hx.
Qed.

Lemma ok_with_stable xs w w' :
  w_reg w' = w_reg w -> w_closed w' = w_closed w -> w_next w' = w_next w ->
  ok_with xs w -> ok_with xs w'.
Proof.
  intros Hr Hc Hn [H1 H2]. split; [eapply sel_ok_stable; eauto|]. rewrite Hn. exact H2.
Qed.

Lemma ok_with_sel_ok xs w : ok_with xs w -> sel_ok w.
Proof. intros [H _]. exact H. Qed.

Lemma sel_ok_ok_with w : sel_ok w -> ok_with [] w.
Proof. intros H. split; [exact H | constructor]. Qed.

#[local] Hint Extern 1 (keeps _ (print _)) => (unfold print, modify; prim) : frame.
#[local] Hint Extern 1 (keeps _ (setblocking _)) => (unfold setblocking; prim) : frame.
#[local] Hint Extern 1 (keeps _ (sock_send _ _ _)) => (unfold sock_send; prim) : frame.
#[local] Hint Extern 1 (keeps _ (sock_recv _ _)) => (unfold sock_recv; prim) : frame.
#[local] Hint Extern 1 (keeps _ request_stop) => (unfold request_stop, modify; prim) : frame.
#[local] Hint Extern 1 (keeps _ (sock_bind _ _)) => (unfold sock_bind; prim) : frame.

Lemma reg_select a : keeps w_reg (sel_select a).
Proof. intros w; unfold sel_select; destruct (w_sel_closed _), a; reflexivity. Qed.

Lemma next_select a : keeps w_next (sel_select a).
Proof. intros w; unfold sel_select; destruct (w_sel_closed _), a; reflexivity. Qed.

Lemma closed_select a : keeps w_closed (sel_select a).
Proof. intros w; unfold sel_select; destruct (w_sel_closed _), a; reflexivity. Qed.

Lemma keeps_send_loop {X} (F : world -> X) conn msg answers :
  (forall chunk a, keeps F (sock_send conn chunk a)) ->
  forall t, keeps F (send_loop conn msg t answers).
Proof.
  intros Hs. induction answers as [|a rest IH]; intros t; cbn [send_loop];
    (destruct (t <? List.length msg); [|apply keeps_ret]).
  - apply keeps_stuck.
  - frame.
Qed.

Lemma keeps_safe_send {X} (F : world -> X) conn msg answers :
  (forall l, keeps F (print l)) -> (forall chunk a, keeps F (sock_send conn chunk a)) ->
  keeps F (safe_send conn msg answers).
Proof.
  intros Hp Hs. unfold safe_send. destruct msg as [|b msg']; [apply keeps_ret|].
  pose proof (keeps_send_loop F conn (b :: msg') answers Hs 0). frame.
Qed.

Lemma view_safe_send conn msg answers :
  keeps w_reg (safe_send conn msg answers) /\ keeps w_closed (safe_send conn msg answers) /\
  keeps w_next (safe_send conn msg answers).
Proof. repeat split; apply keeps_safe_send; intros; frame. Qed.

(** Keeping [sel_ok] (or [ok_with xs]) through a step that leaves the
    view alone. *)
Ltac keep_view :=
  match goal with
  | |- triple (ok_with ?xs) _ _ _ =>
      apply triple_keep; [apply ok_with_stable | frame | frame | frame | apply ok_with_sel_ok]
  | |- triple sel_ok _ _ _ =>
      apply triple_keep; [apply sel_ok_stable | frame | frame | frame | auto]
  end.

Lemma triple_new_socket xs :
  triple (ok_with xs) new_socket (fun s => ok_with (s :: xs)) sel_ok.
Proof.
  intros w [Hok Hxs]. simpl. split; [|constructor; [simpl; lia|]].
  - intros x d Hx. destruct (Hok x d Hx). simpl. split; [assumption|lia].
  - eapply Forall_impl; [|exact Hxs]. simpl. intros; lia.
Qed.

Lemma triple_sock_accept xs l a :
  triple (ok_with xs) (sock_accept l a) (fun s => ok_with (s :: xs)) sel_ok.
Proof.
  intros w H. unfold sock_accept. destruct (is_closed l w); [apply H|].
  destruct a; [apply triple_new_socket, H | apply H].
Qed.

Lemma triple_create_connection xs a :
  triple (ok_with xs) (create_connection a) (fun s => ok_with (s :: xs)) sel_ok.
Proof.
  intros w H. unfold create_connection, bind, new_socket. simpl.
  pose proof (triple_new_socket xs w H) as Hn. simpl in Hn.
  destruct a as [|e]; [exact Hn|].
  destruct H as [Hok _]. unfold sock_close.
  destruct (is_closed (w_next w) _); simpl; [exact (proj1 Hn)|].
  intros x d Hx. simpl in Hx. destruct (Hok x d Hx) as [Hc Hlt]. simpl. split; [|lia].
  change (existsb (Nat.eqb x) (w_closed w ++ [w_next w]) = false).
  rewrite existsb_app. apply orb_false_iff. split; [exact Hc|].
  cbn [existsb]. rewrite orb_false_r. apply Nat.eqb_neq. lia.
Qed.

Lemma triple_sel_register xs s d :
  In s xs -> triple (ok_with xs) (sel_register s d) (fun _ => ok_with xs) sel_ok.
Proof.
  intros Hin w [Hok Hxs]. unfold sel_register.
  destruct (is_closed s w) eqn:Hc; [exact Hok|].
  destruct (is_registered s w); [exact Hok|].
  simpl. split; [|exact Hxs].
  intros x d' Hx. apply in_app_or in Hx as [Hx|[Hx|[]]].
  - apply Hok in Hx. exact Hx.
  - inversion Hx; subst. split; [exact Hc|]. rewrite Forall_forall in Hxs. apply Hxs, Hin.
Qed.

Lemma triple_close_connection c s :
  triple sel_ok (close_connection c s) (fun _ => sel_ok) sel_ok.
Proof.
  intros w Hok. pose proof (close_connection_effect c s w) as H.
  destruct (close_connection c s w) as [r w']. destruct H as (-> & Hreg & Hcl & Hn & _).
  intros x d Hx. rewrite Hreg in Hx. unfold drop_pair in Hx.
  apply filter_In in Hx as [Hx Hneq]. simpl in Hneq.
  apply andb_true_iff in Hneq as [H1 H2]. apply negb_true_iff in H1, H2.
  destruct (Hok x d Hx) as [Hc Hlt]. rewrite Hcl, Hc, Hn.
  rewrite Nat.eqb_sym in H1, H2. rewrite H1, H2. split; [reflexivity | exact Hlt].
Qed.

Lemma triple_release_locals s k :
  triple sel_ok (release_locals s k) (fun _ => sel_ok) sel_ok.
Proof.
  intros w Hok. destruct (release_locals_effect s k w) as (Er & Hr & _ & Hn & Hc).
  destruct (release_locals s k w) as [r w']. simpl in Er, Hr, Hn, Hc. subst r. cbn beta iota.
  intros x d Hx. rewrite Hr in Hx. destruct (Hok x d Hx) as [Hcl Hlt].
  assert (Hreg : is_registered x w = true)
    by (apply existsb_exists; exists (x, d); split; [exact Hx | apply Nat.eqb_refl]).
  rewrite Hc, Hcl, Hn, Hreg, andb_false_r. split; [reflexivity | exact Hlt].
Qed.

Lemma triple_accept l aa ca :
  triple sel_ok (accept_connection l aa ca) (fun _ => sel_ok) sel_ok.
Proof.
  unfold accept_connection.
  apply (triple_bind _ _ (fun _ => sel_ok)); [keep_view | intros w0].
  apply (triple_bind _ _ (fun _ => sel_ok));
    [| intros _; apply (triple_bind _ _ (fun _ => sel_ok));
       [keep_view | intros w1; apply triple_release_locals]].
  apply triple_try; [|intros e; keep_view].
  apply (triple_conseq (ok_with []) _ _ (fun _ => ok_with [])); [exact sel_ok_ok_with | intros _ w; apply ok_with_sel_ok |].
  apply (triple_bind _ _ (fun c => ok_with [c])); [apply triple_sock_accept|intros c].
  apply (triple_bind _ _ (fun _ => ok_with [c])); [keep_view|intros _].
  apply (triple_bind _ _ (fun _ => ok_with [c])); [keep_view|intros _].
  apply (triple_bind _ _ (fun s => ok_with [s; c])); [apply triple_create_connection|intros s].
  apply (triple_bind _ _ (fun _ => ok_with [s; c])); [keep_view|intros _].
  apply (triple_bind _ _ (fun _ => ok_with [s; c])); [apply triple_sel_register; simpl; auto|intros _].
  apply (triple_conseq (ok_with [s; c]) _ _ (fun _ => ok_with [s; c])); [auto | intros _ w [H _]; split; [exact H|constructor] |].
  apply triple_sel_register. simpl. auto.
Qed.

#[local] Hint Resolve reg_select next_select closed_select keeps_get : frame.
#[local] Hint Extern 1 (keeps _ (safe_send _ _ _)) => (apply keeps_safe_send; intros; frame) : frame.
#[local] Hint Extern 1 (keeps _ (send_loop _ _ _ _)) => (apply keeps_send_loop; intros; frame) : frame.

Lemma triple_handler side c s body :
  triple sel_ok body (fun _ => sel_ok) sel_ok ->
  triple sel_ok (handler_excepts side c s body) (fun _ => sel_ok) sel_ok.
Proof.
  intros Hb. unfold handler_excepts.
  apply triple_try; [apply triple_try; [exact Hb|] |]; intros e;
    (apply (triple_bind _ _ (fun _ => sel_ok)); [keep_view | intros _; apply triple_close_connection]).
Qed.

Lemma triple_read_from_client port c s ra sends :
  triple sel_ok (read_from_client port c s ra sends) (fun _ => sel_ok) sel_ok.
Proof.
  apply triple_handler. unfold client_relay_body.
  apply (triple_bind _ _ (fun _ => sel_ok)); [keep_view|intros data].
  destruct data as [|b bs]; cbv zeta.
  - apply (triple_bind _ _ (fun _ => sel_ok)); [keep_view | intros _; apply triple_close_connection].
  - apply (triple_bind _ _ (fun _ => sel_ok)); [keep_view | intros _; keep_view].
Qed.

Lemma triple_read_from_server c s ra sends :
  triple sel_ok (read_from_server c s ra sends) (fun _ => sel_ok) sel_ok.
Proof.
  apply triple_handler. unfold server_relay_body.
  apply (triple_bind _ _ (fun _ => sel_ok)); [keep_view|intros data].
  destruct data as [|b bs].
  - apply (triple_bind _ _ (fun _ => sel_ok)); [keep_view | intros _; apply triple_close_connection].
  - apply (triple_bind _ _ (fun _ => sel_ok)); [keep_view | intros _; keep_view].
Qed.

Lemma triple_dispatch_all port evs :
  triple sel_ok (dispatch_all port evs) (fun _ => sel_ok) sel_ok.
Proof.
  induction evs as [|[k o] rest IH]; simpl; [exact (triple_ret (fun _ => sel_ok) sel_ok _)|].
  apply (triple_bind _ _ (fun _ => sel_ok)); [|intros _; exact IH].
  unfold dispatch. destruct (snd k).
  - apply triple_accept.
  - apply triple_read_from_client.
  - apply triple_read_from_server.
Qed.

Lemma triple_loop_body port a :
  triple sel_ok (loop_body port a) (fun _ => sel_ok) sel_ok.
Proof.
  unfold loop_body. apply triple_try.
  - apply (triple_bind _ _ (fun _ => sel_ok)); [keep_view|intros [evs|]].
    + apply (triple_bind _ _ (fun _ => sel_ok)); [apply triple_dispatch_all | intros _; exact (triple_ret (fun _ => sel_ok) sel_ok _)].
    + apply (triple_bind _ _ (fun _ => sel_ok)); [keep_view|intros _].
      apply (triple_bind _ _ (fun _ => sel_ok)); [keep_view | intros _; exact (triple_ret (fun _ => sel_ok) sel_ok _)].
  - intros e. apply (triple_bind _ _ (fun _ => sel_ok)); [keep_view | intros _; exact (triple_ret (fun _ => sel_ok) sel_ok _)].
Qed.

Lemma triple_event_loop port its :
  triple sel_ok (event_loop port its) (fun _ => sel_ok) sel_ok.
Proof.
  induction its as [|it rest IH]; simpl; [exact (triple_stuck (fun _ => sel_ok) sel_ok)|].
  apply (triple_bind _ _ (fun _ => sel_ok));
    [destruct (it_stop it); [keep_view | exact (triple_ret (fun _ => sel_ok) sel_ok _)] | intros _].
  apply (triple_bind _ _ (fun _ => sel_ok)); [keep_view | intros w].
  destruct (w_running w); [|exact (triple_ret (fun _ => sel_ok) sel_ok _)].
  apply (triple_bind _ _ (fun _ => sel_ok)); [apply triple_loop_body | intros [|]];
    [exact IH | exact (triple_ret (fun _ => sel_ok) sel_ok _)].
Qed.

Lemma triple_run_body port ba its :
  triple sel_ok (run_body port ba its) (fun _ => sel_ok) sel_ok.
Proof.
  unfold run_body. apply triple_try; [|intros e; keep_view].
  apply (triple_conseq (ok_with []) _ _ (fun _ => sel_ok)); [exact sel_ok_ok_with | auto |].
  apply (triple_bind _ _ (fun l => ok_with [l])); [apply triple_new_socket | intros l].
  apply (triple_bind _ _ (fun _ => ok_with [l])); [keep_view | intros _].
  apply (triple_bind _ _ (fun _ => ok_with [l])); [keep_view | intros _].
  apply (triple_bind _ _ (fun _ => ok_with [l])); [apply triple_sel_register; left; reflexivity | intros _].
  apply (triple_bind _ _ (fun _ => ok_with [l])); [keep_view | intros _].
  apply (triple_conseq sel_ok _ _ (fun _ => sel_ok)); [apply ok_with_sel_ok | auto | apply triple_event_loop].
Qed.

(** Through the whole [try] block of [run] (setup and any number of
    turns of the event loop), the selector map only ever holds sockets
    that are open and were created by the program: teardown unregisters
    before it closes, and a freshly created socket that fails to connect
    is closed before anything registers it. *)
Theorem run_keeps_selector_map_open (port : nat) (ba : bind_answer) (its : list iteration)
        (w : world) :
  sel_ok w -> sel_ok (snd (run_body port ba its w)).
Proof.
  intros H. pose proof (triple_run_body port ba its w H) as T.
  destruct (run_body port ba its w) as [[a|e|] w']; exact T.
Qed.

Lemma pair_world_sel_ok : sel_ok pair_world.
Proof.
  intros x d H. simpl in H.
  destruct H as [H|[H|[H|[]]]]; inversion H; subst; split; (reflexivity || (simpl; lia)).
Qed.

Lemma run_keeps_selector_map_open_witness :
  sel_ok pair_world /\
  sel_ok (snd (run_body 7245 BindOk
                 [mkIteration false (SelReady [(1, mkOracle AcceptOk ConnectOk (Received []) [])]);
                  mkIteration false SelInterrupt] pair_world)).
Proof.
  split; [exact pair_world_sel_ok|].
  apply (run_keeps_selector_map_open 7245 BindOk
           [mkIteration false (SelReady [(1, mkOracle AcceptOk ConnectOk (Received []) [])]);
            mkIteration false SelInterrupt] pair_world pair_world_sel_ok).
Defined.

(* ------------------------------------------------------------------ *)
(** ** Errors around [select] and [bind] *)

(** A turn whose [select] raises an [Exception] logs it and goes on with
    the next turn, the world changed only by the poll and the log line;
    a [KeyboardInterrupt] clears [self.running] and leaves the loop,
    whatever turns would follow. *)
Theorem event_loop_select_errors (port : nat) (e : exn) (rest : list iteration) (w : world) :
  w_running w = true -> w_sel_closed w = false ->
  event_loop port (mkIteration false (SelRaises e) :: rest) w =
    event_loop port rest (set_log (w_log w ++ [LError "select loop" e]) (set_polls (S (w_polls w)) w)) /\
  event_loop port (mkIteration false SelInterrupt :: rest) w =
    (Ok tt, set_running false (set_log (w_log w ++ [LNote "Shutting down"])
                                       (set_polls (S (w_polls w)) w))).
Proof.
  intros Hr Hs. split; cbn [event_loop it_stop it_select];
    unfold loop_body, sel_select, print, modify, request_stop, bind, ret, get_world, try_catch;
    simpl; rewrite Hr; simpl; rewrite Hs; reflexivity.
Qed.

Lemma event_loop_select_errors_witness :
  (w_running pair_world = true /\ w_sel_closed pair_world = false) /\
  event_loop 7245 (mkIteration false (SelRaises TimeoutError) :: []) pair_world =
    event_loop 7245 [] (set_log (w_log pair_world ++ [LError "select loop" TimeoutError])
                                (set_polls (S (w_polls pair_world)) pair_world)) /\
  event_loop 7245 (mkIteration false SelInterrupt :: []) pair_world =
    (Ok tt, set_running false (set_log (w_log pair_world ++ [LNote "Shutting down"])
                                       (set_polls (S (w_polls pair_world)) pair_world))).
Proof.
  split; [split; reflexivity|].
  apply (event_loop_select_errors 7245 TimeoutError [] pair_world); reflexivity.
Defined.

Lemma close_all_only keys :
  forall w x, is_closed x (snd (close_all keys w)) = true ->
  is_closed x w = true \/ In x (map fst keys).
Proof.
  induction keys as [|[s d] rest IH]; intros w x H; simpl in *; [auto|].
  rewrite (bind_ok _ _ _ _ _ (try_pass_close s w)) in H.
  apply IH in H as [H|H]; [|auto].
  destruct (sock_close_fields s w) as (_ & _ & _ & _ & _ & _ & _ & Hc).
  rewrite Hc in H. apply orb_true_iff in H as [H|H]; [auto|].
  apply Nat.eqb_eq in H. auto.
Qed.

#[local] Hint Extern 1 (keeps _ (sock_close _)) => (unfold sock_close; prim) : frame.

Lemma log_close_all keys : keeps w_log (close_all keys).
Proof. induction keys as [|[s d] rest IH]; simpl; unfold try_pass; frame. Qed.

Lemma cleanup_result w :
  exists w1, close_all (w_reg w) w = (Ok tt, w1) /\
             cleanup w = (Ok tt, set_reg [] (set_sel_closed true w1)).
Proof.
  destruct (close_all_spec (w_reg w) w) as (Hok & _).
  destruct (close_all (w_reg w) w) as [r w1] eqn:E. simpl in Hok. subst r.
  exists w1. split; [reflexivity|].
  unfold cleanup. rewrite (bind_ok _ _ _ _ _ (eq_refl : get_world w = (Ok w, w))).
  rewrite (bind_ok _ _ _ _ _ E). reflexivity.
Qed.

(** When [bind] fails, [run] logs the error and returns normally without
    a single [select]; the [finally] block releases the selector, but the
    new listening socket, never registered, is not closed by it. *)
Theorem run_bind_failure_skips_listener (port : nat) (e : exn) (its : list iteration) (w : world) :
  is_closed (w_next w) w = false -> ~ In (w_next w) (map fst (w_reg w)) ->
  let '(r, w') := run_core port (BindRaises e) its w in
  r = Ok tt /\ w_polls w' = w_polls w /\ w_sel_closed w' = true /\ w_reg w' = [] /\
  is_closed (w_next w) w' = false /\ In (LError "starting proxy server" e) (w_log w').
Proof.
  intros Hc Hr.
  set (w2 := set_log (w_log (set_next (S (w_next w)) w) ++ [LError "starting proxy server" e])
                     (set_next (S (w_next w)) w)).
  assert (Eb : run_body port (BindRaises e) its w = (Ok tt, w2)) by reflexivity.
  destruct (cleanup_result w2) as (w3 & E3 & Ec).
  unfold run_core, try_finally. rewrite Eb, Ec.
  pose proof (polls_cleanup w2) as Hp. rewrite Ec in Hp. simpl in Hp.
  repeat split; simpl.
  - exact Hp.
  - change (is_closed (w_next w) w3 = false).
    destruct (is_closed (w_next w) w3) eqn:E; [|reflexivity].
    assert (E' : is_closed (w_next w) (snd (close_all (w_reg w2) w2)) = true) by (rewrite E3; exact E).
    apply close_all_only in E' as [E'|E'].
    + change (is_closed (w_next w) w = true) in E'. congruence.
    + exfalso. exact (Hr E').
  - assert (Hl : w_log w3 = w_log w2).
    { pose proof (log_close_all (w_reg w2) w2) as Hl. rewrite E3 in Hl. exact Hl. }
    rewrite Hl. unfold w2. simpl. apply in_or_app. right. left. reflexivity.
Qed.

Lemma run_bind_failure_skips_listener_witness :
  (is_closed (w_next empty_world) empty_world = false /\
   ~ In (w_next empty_world) (map fst (w_reg empty_world))) /\
  let '(r, w') := run_core 7245 (BindRaises OSError) [] empty_world in
  r = Ok tt /\ w_polls w' = w_polls empty_world /\ w_sel_closed w' = true /\ w_reg w' = [] /\
  is_closed (w_next empty_world) w' = false /\
  In (LError "starting proxy server" OSError) (w_log w').
Proof.
  assert (H2 : ~ In (w_next empty_world) (map fst (w_reg empty_world))) by (simpl; tauto).
  split; [split; [reflexivity | exact H2]|].
  exact (run_bind_failure_skips_listener 7245 OSError [] empty_world eq_refl H2).
Defined.

(* ------------------------------------------------------------------ *)
(** ** The choice of the address to bind to *)

Lemma py_index_In {A} (l : list A) i a : py_index l i = Some a -> In a l.
Proof.
  unfold py_index. destruct (0 <=? i)%Z; [apply nth_error_In|].
  destruct (- Z.of_nat (List.length l) <=? i)%Z; [apply nth_error_In | discriminate].
Qed.

Lemma valid_addrs_spec addrs a :
  In a (valid_addrs addrs) <-> In a addrs /\ String.prefix "fe80" (sa_host a) = false.
Proof.
  unfold valid_addrs. rewrite filter_In, negb_true_iff. reflexivity.
Qed.

(** The address [run] binds to is one [getaddrinfo] returned, and never
    a link-local one. *)
Theorem chosen_address_not_link_local (gai : option (list sockaddr6)) (selection : option Z)
        (host : string) (port : nat) :
  choose_address gai selection = Chosen host port ->
  String.prefix "fe80" host = false /\
  exists addrs a, gai = Some addrs /\ In a addrs /\ sa_host a = host /\ sa_port a = port.
Proof.
  intros H. destruct gai as [addrs|]; [|discriminate]. simpl in H.
  assert (Hin : exists a, In a (valid_addrs addrs) /\ sa_host a = host /\ sa_port a = port).
  { destruct (1 <? List.length (valid_addrs addrs)).
    - destruct selection as [n|]; [|discriminate].
      destruct (py_index (valid_addrs addrs) (n - 1)%Z) as [a|] eqn:E; [|discriminate].
      inversion H; subst. exists a. split; [eapply py_index_In; exact E | auto].
    - destruct (valid_addrs addrs) as [|a rest] eqn:E; [discriminate|].
      inversion H; subst. exists a. split; [left; reflexivity | auto]. }
  destruct Hin as (a & Ha & <- & <-). apply valid_addrs_spec in Ha as [Ha Hp].
  split; [exact Hp|]. exists addrs, a. auto.
Qed.

Lemma chosen_address_not_link_local_witness :
  choose_address (Some example_addrs) (Some 2%Z) = Chosen "2001:db8::2"%string 7245 /\
  (String.prefix "fe80" "2001:db8::2" = false /\
   exists addrs a, Some example_addrs = Some addrs /\ In a addrs /\
                   sa_host a = "2001:db8::2"%string /\ sa_port a = 7245).
Proof.
  split; [reflexivity|].
  apply (chosen_address_not_link_local (Some example_addrs) (Some 2%Z)). reflexivity.
Defined.

(** The menu of usable addresses: entry [k] (1 to the number of
    addresses) picks the [k]-th, entry [0] picks the last one (Python's
    index [-1]), an entry past the end or no number at all makes [run]
    give up. *)
Theorem address_menu_numbering (addrs : list sockaddr6) :
  1 < List.length (valid_addrs addrs) ->
  (forall k a, nth_error (valid_addrs addrs) k = Some a ->
     choose_address (Some addrs) (Some (Z.of_nat (S k))) = Chosen (sa_host a) (sa_port a)) /\
  (forall a, nth_error (valid_addrs addrs) (List.length (valid_addrs addrs) - 1) = Some a ->
     choose_address (Some addrs) (Some 0%Z) = Chosen (sa_host a) (sa_port a)) /\
  (forall n, (Z.of_nat (List.length (valid_addrs addrs)) < n)%Z ->
     choose_address (Some addrs) (Some n) = AddressError) /\
  choose_address (Some addrs) None = AddressError.
Proof.
  intros Hlen. unfold choose_address.
  set (valid := valid_addrs addrs) in *.
  assert (Hl : (1 <? List.length valid) = true) by (apply Nat.ltb_lt; exact Hlen).
  rewrite Hl. repeat split.
  - intros k a Hk. unfold py_index.
    replace (Z.of_nat (S k) - 1)%Z with (Z.of_nat k) by lia.
    rewrite (proj2 (Z.leb_le 0 (Z.of_nat k)) (Nat2Z.is_nonneg k)), Nat2Z.id, Hk. reflexivity.
  - intros a Ha. unfold py_index. simpl Z.sub.
    replace (Z.of_nat (List.length valid) + -1)%Z with (Z.of_nat (List.length valid - 1)) by lia.
    rewrite (proj2 (Z.leb_le (- Z.of_nat (List.length valid)) (-1)) ltac:(lia)), Nat2Z.id, Ha.
    reflexivity.
  - intros n Hn. unfold py_index.
    rewrite (proj2 (Z.leb_le 0 (n - 1)) ltac:(lia)).
    rewrite (proj2 (nth_error_None valid (Z.to_nat (n - 1))) ltac:(lia)). reflexivity.
Qed.

Lemma address_menu_numbering_witness :
  1 < List.length (valid_addrs example_addrs) /\
  choose_address (Some example_addrs) (Some 0%Z) = Chosen "2001:db8::2"%string 7245.
Proof.
  split; [simpl; lia|].
  destruct (address_menu_numbering example_addrs ltac:(simpl; lia)) as (_ & Hlast & _).
  apply (Hlast (mkSockaddr6 "2001:db8::2"%string 7245 0 0)). reflexivity.
Defined.

(** With at most one usable address there is no menu and the block
    cannot fail: whatever the user would enter, [run] takes the one
    usable address, or reports that none is left. *)
Theorem address_without_menu (addrs : list sockaddr6) (selection : option Z) :
  List.length (valid_addrs addrs) <= 1 ->
  (forall a, In a (valid_addrs addrs) ->
     choose_address (Some addrs) selection = Chosen (sa_host a) (sa_port a)) /\
  (valid_addrs addrs = [] -> choose_address (Some addrs) selection = NoValidAddress).
Proof.
  intros H. unfold choose_address.
  rewrite (proj2 (Nat.ltb_ge _ _) H).
  destruct (valid_addrs addrs) as [|b [|c rest]]; simpl in H |- *.
  - split; [intros a []|reflexivity].
  - split; [intros a [<-|[]]; reflexivity | discriminate].
  - lia.
Qed.

Lemma address_without_menu_witness :
  List.length (valid_addrs [mkSockaddr6 "fe80::1"%string 7245 0 2; mkSockaddr6 "2001:db8::1"%string 7245 0 0]) <= 1 /\
  choose_address (Some [mkSockaddr6 "fe80::1"%string 7245 0 2; mkSockaddr6 "2001:db8::1"%string 7245 0 0]) (Some 5%Z) =
  Chosen "2001:db8::1"%string 7245.
Proof.
  assert (Hl : List.length (valid_addrs [mkSockaddr6 "fe80::1"%string 7245 0 2;
                                         mkSockaddr6 "2001:db8::1"%string 7245 0 0]) <= 1)
    by (simpl; lia).
  split; [exact Hl|].
  apply (proj1 (address_without_menu _ (Some 5%Z) Hl) (mkSockaddr6 "2001:db8::1"%string 7245 0 0)).
  simpl. left. reflexivity.
Defined.
